(** * Spectral features of current waveforms: a shallow embedding of
      [features/spectral.py] and the properties of its feature formulas.

    Amplitudes and frequencies are numpy [float64] values in the program.
    They are idealised here as exact rationals ([Q]), so that every
    definition computes; only the spectral flatness, whose geometric mean
    leaves the rationals, is stated over the real numbers.  Rounding,
    infinities and NaN are outside the model; in particular a quotient with
    a zero divisor (numpy: inf or nan, with a warning) is [0] in [Q], and no
    statement below depends on the value of such a quotient.

    Python exceptions are values of [exception]; a function that can raise
    returns a [result]. *)

From Stdlib Require Import String ZArith QArith Qabs Bool Arith Lia Lqa Sorted List.
From Stdlib Require Import Reals Lra.
Import ListNotations.

(* ================================================================== *)
(** * Exceptions and the error monad *)

Inductive exception : Type :=
| ZeroDivisionError                      (* float division by zero (Python floats) *)
| IndexError                             (* index out of bounds *)
| ValueError_empty_sequence              (* argmin / argmax of an empty sequence *)
| ValueError_concatenate                 (* need at least one array to concatenate *)
| ValueError_broadcast                   (* operands could not be broadcast together *)
| ValueError_mains_frequency (f : Q)     (* "Mains frequency of {f}Hz is not in spectral frequencies ..." *)
| ValueError_filter_type (t : string).   (* "High pass filter of type '{t}' not implemented..." *)

Inductive result (A : Type) : Type :=
| Ok (a : A)
| Raise (e : exception).
Arguments Ok {A} a.
Arguments Raise {A} e.

Definition bind {A B : Type} (r : result A) (k : A -> result B) : result B :=
  match r with
  | Ok a => k a
  | Raise e => Raise e
  end.

Notation "x <- r ;; k" := (bind r (fun x => k))
  (at level 61, r at next level, right associativity).

Fixpoint mapM {A B : Type} (f : A -> result B) (l : list A) : result (list B) :=
  match l with
  | [] => Ok []
  | a :: t => b <- f a ;; bs <- mapM f t ;; Ok (b :: bs)
  end.

(* ================================================================== *)
(** * Arrays *)

(** A one-dimensional array is a list.  A two-dimensional array carries its
    second dimension, which numpy keeps even when there is no row. *)
Record ndarray : Type := mk_ndarray { shape1 : nat; rows : list (list Q) }.

Definition shape0 (m : ndarray) : nat := length (rows m).

Definition wf_ndarray (m : ndarray) : Prop :=
  Forall (fun r => length r = shape1 m) (rows m).

Definition entry (m : ndarray) (i j : nat) : Q := nth j (nth i (rows m) []) 0.

Definition Qlt_bool (x y : Q) : bool := negb (Qle_bool y x).

Definition Qsum (l : list Q) : Q := fold_right Qplus 0 l.

(** [np.arange(start, stop, step)] for a positive step. *)
Definition arange (start stop step : nat) : list nat :=
  map (fun k => (start + k * step)%nat)
      (seq 0 ((stop - start + step - 1) / step)).

(** [a[idx]] with an index array, on a one-dimensional array. *)
Definition take (idx : list nat) (a : list Q) : result (list Q) :=
  if forallb (fun i => i <? length a)%nat idx
  then Ok (map (fun i => nth i a 0) idx)
  else Raise IndexError.

(** [m[:, idx]] with an index array (or tuple) [idx]. *)
Definition take_columns (idx : list nat) (m : ndarray) : result ndarray :=
  if forallb (fun i => i <? shape1 m)%nat idx
  then Ok (mk_ndarray (length idx)
             (map (fun r => map (fun i => nth i r 0) idx) (rows m)))
  else Raise IndexError.

(** [m[:, i]]: one column as a one-dimensional array. *)
Definition column (i : nat) (m : ndarray) : result (list Q) :=
  if (i <? shape1 m)%nat
  then Ok (map (fun r => nth i r 0) (rows m))
  else Raise IndexError.

(** [m[:, a:b]]: a slice never raises, it is clipped to the array. *)
Definition slice_columns (a b : nat) (m : ndarray) : ndarray :=
  mk_ndarray (Nat.min b (shape1 m) - a)
             (map (fun r => firstn (b - a) (skipn a r)) (rows m)).

Definition sum_axis1 (m : ndarray) : list Q := map Qsum (rows m).

Definition mean (r : list Q) : Q := Qsum r / inject_Z (Z.of_nat (length r)).

Definition mean_axis1 (m : ndarray) : list Q := map mean (rows m).

(** [v.reshape(-1, 1)] *)
Definition reshape_column (v : list Q) : ndarray :=
  mk_ndarray 1 (map (fun x => [x]) v).

(** A one-dimensional array seen as a (1, n) array, as broadcasting does. *)
Definition row_vector (v : list Q) : ndarray := mk_ndarray (length v) [v].

(** numpy broadcasting of one dimension against another. *)
Definition broadcast_dim (a b : nat) : option nat :=
  if (a =? b)%nat then Some a
  else if (a =? 1)%nat then Some b
  else if (b =? 1)%nat then Some a
  else None.

Definition broadcast_nth {A : Type} (l : list A) (i : nat) (d : A) : A :=
  nth (if (length l =? 1)%nat then 0%nat else i) l d.

(** Elementwise binary operation on one-dimensional arrays. *)
Definition broadcast1 (op : Q -> Q -> Q) (a b : list Q) : result (list Q) :=
  match broadcast_dim (length a) (length b) with
  | Some n =>
      Ok (map (fun i => op (broadcast_nth a i 0) (broadcast_nth b i 0)) (seq 0 n))
  | None => Raise ValueError_broadcast
  end.

Definition broadcast_entry (m : ndarray) (i j : nat) : Q :=
  nth (if (shape1 m =? 1)%nat then 0%nat else j) (broadcast_nth (rows m) i []) 0.

(** Elementwise binary operation on two-dimensional arrays. *)
Definition broadcast2 (op : Q -> Q -> Q) (a b : ndarray) : result ndarray :=
  match broadcast_dim (shape0 a) (shape0 b), broadcast_dim (shape1 a) (shape1 b) with
  | Some r, Some c =>
      Ok (mk_ndarray c
            (map (fun i =>
                    map (fun j => op (broadcast_entry a i j) (broadcast_entry b i j))
                        (seq 0 c))
                 (seq 0 r)))
  | _, _ => Raise ValueError_broadcast
  end.

(** [np.hstack] of two-dimensional arrays: the row counts must agree. *)
Fixpoint hstack (ms : list ndarray) : result ndarray :=
  match ms with
  | [] => Raise ValueError_concatenate
  | [m] => Ok m
  | m :: t =>
      r <- hstack t ;;
      if (shape0 m =? shape0 r)%nat
      then Ok (mk_ndarray (shape1 m + shape1 r)
                 (map (fun p => fst p ++ snd p) (combine (rows m) (rows r))))
      else Raise ValueError_concatenate
  end.

(** First index of the best element: [np.argmin] / [np.argmax] return the
    first occurrence, and raise on an empty sequence. *)
Fixpoint arg_best_from {A : Type} (better : A -> A -> bool)
         (best : A) (besti i : nat) (l : list A) : nat :=
  match l with
  | [] => besti
  | x :: t =>
      if better x best then arg_best_from better x i (S i) t
      else arg_best_from better best besti (S i) t
  end.

Definition arg_best {A : Type} (better : A -> A -> bool) (l : list A) : result nat :=
  match l with
  | [] => Raise ValueError_empty_sequence
  | x :: t => Ok (arg_best_from better x 0%nat 1%nat t)
  end.

Definition argmin (l : list Q) : result nat := arg_best Qlt_bool l.
Definition argmax (l : list Q) : result nat := arg_best (fun x best => Qlt_bool best x) l.
Definition argmax_nat (l : list nat) : result nat :=
  arg_best (fun x best => (best <? x)%nat) l.

(* ================================================================== *)
(** * Module constants *)

Definition POWER_FREQUENCY : Q := 50.
Definition SAMPLING_RATE : Q := 6400.

(* ================================================================== *)
(** * Harmonic features *)

(** [odd_even_ratio]: the two index arrays are built with [step=20]. *)
Definition odd_even_ratio (harmonics_amp : ndarray) : result ndarray :=
  let odd := arange 0 20 20 in
  let even := arange 1 20 20 in
  o <- take_columns odd harmonics_amp ;;
  e <- take_columns even harmonics_amp ;;
  q <- broadcast1 Qdiv (mean_axis1 o) (mean_axis1 e) ;;
  Ok (reshape_column q).

(** [tristiumulus] *)
Definition tristiumulus (harmonics_amp : ndarray) : result ndarray :=
  let harmonics_sum := sum_axis1 harmonics_amp in
  c0 <- column 0 harmonics_amp ;;
  t_1 <- broadcast1 Qdiv c0 harmonics_sum ;;
  c123 <- take_columns [1; 2; 3]%nat harmonics_amp ;;
  t_2 <- broadcast1 Qdiv (sum_axis1 c123) harmonics_sum ;;
  t_3 <- broadcast1 Qdiv (sum_axis1 (slice_columns 4 9 harmonics_amp)) harmonics_sum ;;
  hstack [reshape_column t_1; reshape_column t_2; reshape_column t_3].

(** The formulas of the two docstrings, on one row of (at least) 20
    harmonic amplitudes; [x i] is the amplitude of harmonic order [i]. *)
Definition harmonic (row : list Q) (i : nat) : Q := nth (i - 1) row 0.

Definition documented_odd_even_ratio (row : list Q) : Q :=
  mean (map (harmonic row) [1; 3; 5; 7; 9; 11; 13; 15; 17; 19]%nat)
  / mean (map (harmonic row) [2; 4; 6; 8; 10; 12; 14; 16; 18; 20]%nat).

Definition documented_tristimulus (row : list Q) : list Q :=
  let x := harmonic row in
  let S := Qsum (map x (seq 1 20)) in
  [ x 1%nat / S;
    (x 2%nat + x 3%nat + x 4%nat) / S;
    (x 5%nat + x 6%nat + x 7%nat + x 8%nat + x 9%nat + x 10%nat) / S ].

(* ================================================================== *)
(** * Frequency map and harmonic bin selection *)

(** [_get_window_from_spectrum]: [(spectrum_amp.shape[1] - 1) * 2], a
    Python integer. *)
Definition _get_window_from_spectrum (spectrum_amp : ndarray) : Z :=
  (Z.of_nat (shape1 spectrum_amp) - 1) * 2.

(** [fft.rfftfreq(n)] with the default spacing [d = 1.0]: numpy computes
    [val = 1.0 / (n * d)] on Python floats, which raises for [n = 0], then
    [arange(0, n // 2 + 1) * val]. *)
Definition rfftfreq (n : Z) : result (list Q) :=
  if (n =? 0)%Z then Raise ZeroDivisionError
  else
    let val := 1 / inject_Z n in
    let N := (n / 2 + 1)%Z in
    Ok (map (fun k => inject_Z (Z.of_nat k) * val) (seq 0 (Z.to_nat N))).

(** [np.dstack([freqs] * n)] has shape (1, L, n) with entry [0, j, i] equal
    to [freqs[j]]; the array is kept as its L rows of n entries.  It raises
    when there is nothing to stack. *)
Definition dstack_copies (freqs : list Q) (n : nat) : result (list (list Q)) :=
  match n with
  | O => Raise ValueError_concatenate
  | S _ => Ok (map (fun f => repeat f n) freqs)
  end.

(** [np.argmin(a, axis=1)] on that (1, L, n) array: for each of the [n]
    positions of the last axis, the first minimal index along the L bins. *)
Definition argmin_axis1 (n : nat) (a : list (list Q)) : result (list nat) :=
  mapM (fun i => argmin (map (fun row => nth i row 0) a)) (seq 0 n).

(** [_get_harmonics_indices] *)
Definition _get_harmonics_indices (spectral_frequencies : list Q) (n : nat)
           (power_frequency : Q) : result (list nat) :=
  let harmonics :=
    map (fun i => inject_Z (Z.of_nat i) * power_frequency) (arange 1 (n + 1) 1) in
  let freqs := map (fun f => if Qlt_bool f 0 then 0 else f) spectral_frequencies in
  stacked <- dstack_copies freqs n ;;
  let dist :=
    map (fun row => map (fun p => Qabs (fst p - snd p)) (combine row harmonics))
        stacked in
  argmin_axis1 n dist.

(** [spectral_frequencies] *)
Definition spectral_frequencies (window : Z) (n : nat) (limit_to_harmonics : bool)
           (power_frequency sampling_rate : Q) : result (list Q) :=
  f <- rfftfreq window ;;
  let freqs := map (fun x => x * sampling_rate) f in
  if limit_to_harmonics then
    idx <- _get_harmonics_indices freqs n power_frequency ;;
    take idx freqs
  else Ok freqs.

(* ================================================================== *)
(** * Mains amplitude *)

(** [np.argmax(m, axis=1)]: raises when the reduced axis is empty. *)
Definition argmax_axis1 (m : ndarray) : result (list nat) :=
  if (shape1 m =? 0)%nat then Raise ValueError_empty_sequence
  else mapM argmax (rows m).

(** [np.unique(a, return_counts=True)]: the distinct values in ascending
    order, each with its number of occurrences. *)
Fixpoint insert_sorted (x : Q) (l : list Q) : list Q :=
  match l with
  | [] => [x]
  | y :: t => if Qle_bool x y then x :: l else y :: insert_sorted x t
  end.

Definition sort (l : list Q) : list Q := fold_right insert_sorted [] l.

Fixpoint run_lengths (l : list Q) : list (Q * nat) :=
  match l with
  | [] => []
  | x :: t =>
      match run_lengths t with
      | (y, c) :: r => if Qeq_bool x y then (x, S c) :: r else (x, 1%nat) :: (y, c) :: r
      | [] => [(x, 1%nat)]
      end
  end.

Definition unique_counts (a : list Q) : list Q * list nat :=
  let rl := run_lengths (sort a) in (map fst rl, map snd rl).

(** The frequency of the maximum-amplitude bin of each row:
    [freqs[np.argmax(spectrum_amp, axis=1).reshape(-1, 1)]], flattened. *)
Definition peak_frequencies (spectrum_amp : ndarray) (freqs : list Q) : result (list Q) :=
  indices <- argmax_axis1 spectrum_amp ;;
  take indices freqs.

(** [_peak_amplitude_frequency(spectrum_amp, freqs, all=True)] *)
Definition _peak_amplitude_frequency_all (spectrum_amp : ndarray) (freqs : list Q)
  : result ndarray :=
  p <- peak_frequencies spectrum_amp freqs ;;
  Ok (reshape_column p).

(** [_peak_amplitude_frequency(spectrum_amp, freqs)] ([all=False]) *)
Definition _peak_amplitude_frequency (spectrum_amp : ndarray) (freqs : list Q)
  : result Q :=
  p <- peak_frequencies spectrum_amp freqs ;;
  let (values, counts) := unique_counts p in
  i <- argmax_nat counts ;;
  Ok (nth i values 0).

(** [np.where(freqs == f)[0][0]]: the first matching index, if any. *)
Fixpoint first_index (p : Q -> bool) (l : list Q) : option nat :=
  match l with
  | [] => None
  | x :: t => if p x then Some 0%nat else option_map S (first_index p t)
  end.

(** [_mains_frequency_amplitude]; [mains_frequency = None] asks for the peak
    amplitude frequency. *)
Definition _mains_frequency_amplitude (spectrum_amp : ndarray)
           (mains_frequency : option Q) (power_frequency sampling_rate : Q)
  : result ndarray :=
  let window := _get_window_from_spectrum spectrum_amp in
  freqs <- spectral_frequencies window 20 false power_frequency sampling_rate ;;
  mains <- match mains_frequency with
           | None => _peak_amplitude_frequency spectrum_amp freqs
           | Some f => Ok f
           end ;;
  match first_index (fun x => Qeq_bool x mains) freqs with
  | None => Raise (ValueError_mains_frequency mains)
  | Some idx => take_columns [idx] spectrum_amp
  end.

(** [harmonics_energy_distribution]: the mains amplitude is looked up with
    every default argument. *)
Definition harmonics_energy_distribution (harmonics_amp spectrum_amp : ndarray)
  : result ndarray :=
  x0 <- _mains_frequency_amplitude spectrum_amp (Some POWER_FREQUENCY)
          POWER_FREQUENCY SAMPLING_RATE ;;
  broadcast2 Qdiv harmonics_amp x0.

(** [total_harmonic_distortion]; [rms] lives in [features.helpers], which is
    not part of the sources: it is a parameter, evaluated before the lookup of
    the mains amplitude, and assumed not to raise. *)
Definition total_harmonic_distortion (rms : ndarray -> ndarray)
           (harmonics_amp spectrum_amp : ndarray) : result ndarray :=
  let r := rms harmonics_amp in
  x0 <- _mains_frequency_amplitude spectrum_amp (Some POWER_FREQUENCY)
          POWER_FREQUENCY SAMPLING_RATE ;;
  broadcast2 Qdiv r x0.

(* ================================================================== *)
(** * High-pass filter *)

(** [high_pass_filter] *)
Definition high_pass_filter (spectrum_amp : ndarray) (filter_type : string)
           (filter_frequency : Q) : result ndarray :=
  let window := _get_window_from_spectrum spectrum_amp in
  freqs <- spectral_frequencies window 20 false POWER_FREQUENCY SAMPLING_RATE ;;
  filter <-
    (if String.eqb filter_type "zero" then
       Ok (map (fun f => if Qlt_bool f filter_frequency then 0 else 1) freqs)
     else if String.eqb filter_type "linear" then
       Ok (map (fun f => if Qlt_bool f filter_frequency
                         then f / filter_frequency else 1) freqs)
     else if String.eqb filter_type "quadratic" then
       Ok (map (fun f => if Qlt_bool f filter_frequency
                         then (f / filter_frequency) * (f / filter_frequency)
                         else 1) freqs)
     else if String.eqb filter_type "none" then
       Ok (map (fun _ => 1) freqs)
     else Raise (ValueError_filter_type filter_type)) ;;
  broadcast2 Qmult spectrum_amp (row_vector filter).

(* ================================================================== *)
(** * Spectral flatness, over the real numbers *)

Definition Rsum (l : list R) : R := fold_right Rplus 0%R l.
Definition Rprod (l : list R) : R := fold_right Rmult 1%R l.
Definition Rmean (l : list R) : R := (Rsum l / INR (length l))%R.

(** Modelled from the spec: [geo_mean] of [features.helpers], which is not
    part of the sources.  It is the row-wise geometric mean, the N-th root of
    the product of the N entries of a row (the formula of the docstring of
    [spectral_flatness]); it yields one value per row, as the division by
    [np.mean(_, axis=1)] that follows it requires. *)
Definition geo_mean (a : list (list R)) : list R :=
  map (fun r => Rpower (Rprod r) (/ INR (length r))) a.

(** [spectral_flatness]; both operands of the division have one entry per
    row. *)
Definition spectral_flatness (spectrum_amp : list (list R)) : list (list R) :=
  let spectrum_amp :=
    map (map (fun x => if Req_dec_T x 0 then (1 / 100000)%R else x)) spectrum_amp in
  map (fun q => [q])
      (map (fun p => (fst p / snd p)%R)
           (combine (geo_mean spectrum_amp) (map Rmean spectrum_amp))).

(* ================================================================== *)
(** * The default window and the remaining features *)

(** [_get_default_window]: [int(2**np.floor(np.log2(current.shape[1])))],
    with the binary logarithm taken exactly.  For an array without columns
    numpy computes [log2(0) = -inf] and [2**(-inf) = 0.0], hence 0. *)
Definition _get_default_window (current : ndarray) : Z :=
  if (shape1 current =? 0)%nat then 0%Z
  else (2 ^ Z.log2 (Z.of_nat (shape1 current)))%Z.

(** [m[:, a:]] *)
Definition slice_columns_from (a : nat) (m : ndarray) : ndarray :=
  mk_ndarray (shape1 m - a) (map (skipn a) (rows m)).

(** [np.max(m, axis=1)]: the running maximum of each row; it raises a
    [ValueError] (zero-size array to reduction operation) when the reduced
    axis is empty, rendered here by the constructor of the empty reductions. *)
Definition row_max (x : Q) (t : list Q) : Q :=
  fold_left (fun best y => if Qlt_bool best y then y else best) t x.

Definition max_axis1 (m : ndarray) : result (list Q) :=
  if (shape1 m =? 0)%nat then Raise ValueError_empty_sequence
  else Ok (map (fun r => match r with [] => 0 | x :: t => row_max x t end) (rows m)).

(** [spectral_centroid]: the window comes from [current], of which only the
    shape is read. *)
Definition spectral_centroid (spectrum_amp current : ndarray)
           (power_frequency sampling_rate : Q) : result ndarray :=
  let window := _get_default_window current in
  f <- spectral_frequencies window 20 false power_frequency sampling_rate ;;
  let freqs := skipn 1 f in
  weighted <- broadcast2 Qdiv (slice_columns_from 1 spectrum_amp) (row_vector freqs) ;;
  q <- broadcast1 Qdiv (sum_axis1 weighted)
         (sum_axis1 (slice_columns_from 1 spectrum_amp)) ;;
  Ok (reshape_column q).

(** [signal_to_signal_mean_ratio] *)
Definition signal_to_signal_mean_ratio (spectrum_amp : ndarray) : result ndarray :=
  mx <- max_axis1 spectrum_amp ;;
  q <- broadcast1 Qdiv mx (mean_axis1 spectrum_amp) ;;
  Ok (reshape_column q).

(** [second_harmonic]: [harmonics_amp[:, [1]]] *)
Definition second_harmonic (harmonics_amp : ndarray) : result ndarray :=
  take_columns [1%nat] harmonics_amp.

(** [high_frequency_spectral_centroid] *)
Definition high_frequency_spectral_centroid (spectrum_amp current : ndarray)
           (filter_type : string) (filter_frequency power_frequency sampling_rate : Q)
  : result ndarray :=
  filtered <- high_pass_filter spectrum_amp filter_type filter_frequency ;;
  spectral_centroid filtered current power_frequency sampling_rate.

(** [high_frequency_spectral_flatness]: the filtered amplitudes, rationals,
    are read as real numbers by the flatness. *)
Definition high_frequency_spectral_flatness (spectrum_amp : ndarray)
           (filter_type : string) (filter_frequency : Q) : result (list (list R)) :=
  filtered <- high_pass_filter spectrum_amp filter_type filter_frequency ;;
  Ok (spectral_flatness (map (map Q2R) (rows filtered))).

(** [high_frequency_spectral_mean] *)
Definition high_frequency_spectral_mean (spectrum_amp : ndarray)
           (filter_type : string) (filter_frequency : Q) : result ndarray :=
  filtered <- high_pass_filter spectrum_amp filter_type filter_frequency ;;
  Ok (reshape_column (mean_axis1 filtered)).

(* ================================================================== *)
(** * Notions used in the statements *)

(** The gain [high_pass_filter] applies to a bin of frequency [f]. *)
Definition filter_gain (filter_type : string) (cutoff f : Q) : Q :=
  if Qlt_bool f cutoff then
    if String.eqb filter_type "zero" then 0
    else if String.eqb filter_type "linear" then f / cutoff
    else if String.eqb filter_type "quadratic" then (f / cutoff) * (f / cutoff)
    else 1
  else 1.

(** The filter types [high_pass_filter] implements. *)
Definition supported_filter_types : list string :=
  ["zero"; "linear"; "quadratic"; "none"]%string.

(** [k] is the first best index of [l]: no entry is strictly better than
    the entry at [k], and that entry is strictly better than every earlier
    one. *)
Definition first_best {A : Type} (better : A -> A -> bool) (d : A)
           (l : list A) (k : nat) : Prop :=
  (k < length l)%nat /\
  (forall j, (j < length l)%nat -> better (nth j l d) (nth k l d) = false) /\
  (forall j, (j < k)%nat -> better (nth k l d) (nth j l d) = true).

(** A bin frequency with the negative values replaced by 0, and its
    absolute distance to the [i]-th multiple of the power frequency. *)
Definition clamped (f : Q) : Q := if Qlt_bool f 0 then 0 else f.

Definition harmonic_target (power_frequency : Q) (i : nat) : Q :=
  inject_Z (Z.of_nat i) * power_frequency.

Definition harmonic_distance (power_frequency : Q) (i : nat) (f : Q) : Q :=
  Qabs (clamped f - harmonic_target power_frequency i).

(** A frequency vector as the frequency map produces it: strictly
    increasing along the bins. *)
Definition increasing (l : list Q) : Prop :=
  forall a b, (a < b)%nat -> (b < length l)%nat -> nth a l 0 < nth b l 0.

(** Number of entries of [l] equal to [x]. *)
Definition occurrences (x : Q) (l : list Q) : nat :=
  length (filter (Qeq_bool x) l).

(* ================================================================== *)
(** * Concrete inputs used below *)

Definition row_1_1_3 : list Q := 1 :: 1 :: 3 :: repeat 1 17.
Definition row_ones : list Q := repeat 1 20.
Definition spectrum_3_bins : ndarray := mk_ndarray 3 [[1; 2; 3]; [4; 5; 6]].
Definition spectrum_1_bin : ndarray := mk_ndarray 1 [[1]].
Definition spectrum_votes : ndarray :=
  mk_ndarray 3 [[1; 2; 3]; [4; 5; 3]; [9; 1; 1]; [1; 1; 7]; [2; 1; 1]].
Definition peaks_votes : list Q := [3200; 1600; 0; 3200; 0].
Definition spectrum_5_bins : ndarray := mk_ndarray 5 [[7; 1; 2; 3; 4]].
Definition harmonics_5 : ndarray := mk_ndarray 5 [[4; 2; 1; 1; 2]].

(* ================================================================== *)
(** * The harmonic ratios *)

(** C1. On the 20 harmonic amplitudes 1, 1, 3, 1, ..., 1 the function
    [odd_even_ratio] returns 1, the quotient of the first two amplitudes:
    its index arrays are [0] and [1].  The documented ratio of the mean of the
    odd orders 1, 3, ..., 19 to the mean of the even orders 2, 4, ..., 20 is
    12/10 on this row. *)
Theorem odd_even_ratio_reads_two_columns :
  arange 0 20 20 = [0%nat] /\ arange 1 20 20 = [1%nat] /\
  odd_even_ratio (mk_ndarray 20 [row_1_1_3]) = Ok (mk_ndarray 1 [[1]]) /\
  documented_odd_even_ratio row_1_1_3 == 12 # 10 /\
  ~ 1 == documented_odd_even_ratio row_1_1_3.
Proof.
  repeat split; try (vm_compute; reflexivity).
  vm_compute. discriminate.
Qed.

(** C2. On 20 harmonic amplitudes all equal to 1 the function [tristiumulus]
    returns (1/20, 3/20, 5/20): its third component sums the slice [4:9],
    the five orders 5 to 9.  The documented third component sums the six
    orders 5 to 10 and is 6/20 on this row. *)
Theorem tristiumulus_third_sums_five :
  tristiumulus (mk_ndarray 20 [row_ones])
    = Ok (mk_ndarray 3 [[1 # 20; 3 # 20; 5 # 20]]) /\
  documented_tristimulus row_ones = [1 # 20; 3 # 20; 6 # 20] /\
  ~ 5 # 20 == 6 # 20.
Proof.
  repeat split; try (vm_compute; reflexivity).
  vm_compute. discriminate.
Qed.

(* ================================================================== *)
(** * Auxiliary facts: rationals, lists, broadcasting *)

Lemma Qlt_bool_iff (x y : Q) : Qlt_bool x y = true <-> x < y.
Proof.
  unfold Qlt_bool. rewrite negb_true_iff. split; intros H.
  - apply Qnot_le_lt. intros Hle. apply Qle_bool_iff in Hle. congruence.
  - destruct (Qle_bool y x) eqn:E; [|reflexivity].
    apply Qle_bool_iff in E. exfalso. exact (Qlt_not_le _ _ H E).
Qed.

Lemma Qlt_bool_false_iff (x y : Q) : Qlt_bool x y = false <-> y <= x.
Proof.
  unfold Qlt_bool. rewrite negb_false_iff. apply Qle_bool_iff.
Qed.

Lemma Qmult_one_r (x : Q) : x * 1 = x.
Proof.
  destruct x as [a b]. unfold Qmult. simpl.
  now rewrite Z.mul_1_r, Pos.mul_1_r.
Qed.

Lemma Qmult_zero_r (x : Q) : x * 0 == 0.
Proof. ring. Qed.

Lemma map_nth_seq {A B : Type} (g : A -> B) (l : list A) (d : A) :
  map (fun i => g (nth i l d)) (seq 0 (length l)) = map g l.
Proof.
  induction l as [|a l IH]; [reflexivity|].
  simpl. f_equal. rewrite <- seq_shift, map_map. exact IH.
Qed.

Lemma broadcast_nth_inside {A : Type} (l : list A) (i : nat) (d : A) :
  (i < length l)%nat -> broadcast_nth l i d = nth i l d.
Proof.
  intros Hi. unfold broadcast_nth.
  destruct (length l =? 1)%nat eqn:E; [|reflexivity].
  apply Nat.eqb_eq in E. replace i with 0%nat by lia. reflexivity.
Qed.

Lemma broadcast_entry_inside (m : ndarray) (i j : nat) :
  (i < shape0 m)%nat -> (j < shape1 m)%nat -> broadcast_entry m i j = entry m i j.
Proof.
  intros Hi Hj. unfold broadcast_entry, entry.
  rewrite broadcast_nth_inside by exact Hi.
  destruct (shape1 m =? 1)%nat eqn:E; [|reflexivity].
  apply Nat.eqb_eq in E. replace j with 0%nat by lia. reflexivity.
Qed.

Lemma broadcast_dim_one (a : nat) : broadcast_dim a 1 = Some a.
Proof.
  unfold broadcast_dim. destruct (a =? 1)%nat eqn:E; [|reflexivity].
  apply Nat.eqb_eq in E. now subst.
Qed.

Lemma broadcast_dim_same (a : nat) : broadcast_dim a a = Some a.
Proof. unfold broadcast_dim. now rewrite Nat.eqb_refl. Qed.

(** Multiplying (or dividing) a matrix by a one-dimensional array with one
    entry per column never raises, and acts entry by entry. *)
Lemma broadcast2_row_vector (op : Q -> Q -> Q) (m : ndarray) (v : list Q) :
  length v = shape1 m ->
  broadcast2 op m (row_vector v)
  = Ok (mk_ndarray (shape1 m)
          (map (fun i => map (fun j => op (entry m i j) (nth j v 0)) (seq 0 (shape1 m)))
               (seq 0 (shape0 m)))).
Proof.
  intros Hv. unfold broadcast2. simpl.
  change (shape0 (row_vector v)) with 1%nat.
  rewrite broadcast_dim_one, Hv, broadcast_dim_same.
  do 2 f_equal. apply map_ext_in. intros i Hi. apply in_seq in Hi.
  apply map_ext_in. intros j Hj. apply in_seq in Hj.
  rewrite broadcast_entry_inside by lia. f_equal.
  unfold broadcast_entry, broadcast_nth. simpl.
  destruct (length v =? 1)%nat eqn:E; [|reflexivity].
  apply Nat.eqb_eq in E. replace j with 0%nat by lia. reflexivity.
Qed.

Lemma rows_as_entries (m : ndarray) :
  wf_ndarray m ->
  map (fun i => map (fun j => entry m i j) (seq 0 (shape1 m))) (seq 0 (shape0 m))
  = rows m.
Proof.
  intros Hwf. unfold entry, shape0.
  rewrite (map_nth_seq (fun r => map (fun j => nth j r 0) (seq 0 (shape1 m))) (rows m) []).
  rewrite <- (map_id (rows m)) at 2.
  apply map_ext_in. intros r Hr.
  unfold wf_ndarray in Hwf. rewrite Forall_forall in Hwf.
  rewrite <- (Hwf r Hr). rewrite (map_nth_seq (fun x => x) r 0). apply map_id.
Qed.

(* ================================================================== *)
(** * Auxiliary facts: the frequency map *)

Lemma rfftfreq_length (n : Z) (f : list Q) :
  rfftfreq n = Ok f -> length f = Z.to_nat (n / 2 + 1).
Proof.
  unfold rfftfreq. destruct (n =? 0)%Z; [discriminate|].
  intros H. injection H as <-. now rewrite length_map, length_seq.
Qed.

Lemma spectral_frequencies_full (window : Z) (n : nat) (pf sr : Q) :
  spectral_frequencies window n false pf sr
  = (f <- rfftfreq window ;; Ok (map (fun x => x * sr) f)).
Proof. reflexivity. Qed.

(** The implied window of a spectrum has one bin per column, unless the
    spectrum has exactly one column: its implied window is then 0. *)
Lemma bins_of_spectrum (s : ndarray) (n : nat) (pf sr : Q) :
  shape1 s <> 1%nat ->
  exists freqs,
    spectral_frequencies (_get_window_from_spectrum s) n false pf sr = Ok freqs /\
    length freqs = shape1 s.
Proof.
  intros Hc. rewrite spectral_frequencies_full.
  unfold _get_window_from_spectrum, rfftfreq.
  destruct ((Z.of_nat (shape1 s) - 1) * 2 =? 0)%Z eqn:E.
  - apply Z.eqb_eq in E. lia.
  - simpl. eexists. split; [reflexivity|].
    rewrite !length_map, length_seq, Z.div_mul by lia. lia.
Qed.

Lemma bins_of_spectrum_inv (s : ndarray) (n : nat) (pf sr : Q) (freqs : list Q) :
  spectral_frequencies (_get_window_from_spectrum s) n false pf sr = Ok freqs ->
  length freqs = shape1 s /\ shape1 s <> 1%nat.
Proof.
  intros H.
  assert (Hc : shape1 s <> 1%nat).
  { intros E. rewrite spectral_frequencies_full in H.
    unfold _get_window_from_spectrum, rfftfreq in H. rewrite E in H.
    simpl in H. discriminate. }
  destruct (bins_of_spectrum s n pf sr Hc) as [g [Hg Hl]].
  rewrite Hg in H. injection H as <-. auto.
Qed.

Lemma one_bin_spectrum_raises (s : ndarray) (n : nat) (pf sr : Q) :
  shape1 s = 1%nat ->
  spectral_frequencies (_get_window_from_spectrum s) n false pf sr
  = Raise ZeroDivisionError.
Proof.
  intros E. rewrite spectral_frequencies_full.
  unfold _get_window_from_spectrum, rfftfreq. rewrite E. reflexivity.
Qed.

Lemma nth_map_inside {A B : Type} (g : A -> B) (l : list A) (j : nat) (d : B) (d' : A) :
  (j < length l)%nat -> nth j (map g l) d = g (nth j l d').
Proof.
  intros Hj. rewrite (nth_indep _ d (g d')) by now rewrite length_map.
  apply map_nth.
Qed.

Lemma nth_map_seq {B : Type} (g : nat -> B) (n i : nat) (d : B) :
  (i < n)%nat -> nth i (map g (seq 0 n)) d = g i.
Proof.
  intros Hi. rewrite (nth_map_inside g (seq 0 n) i d 0%nat) by now rewrite length_seq.
  now rewrite seq_nth.
Qed.

Lemma entry_of_table (g : nat -> nat -> Q) (r c i j : nat) :
  (i < r)%nat -> (j < c)%nat ->
  entry (mk_ndarray c (map (fun i => map (fun j => g i j) (seq 0 c)) (seq 0 r))) i j
  = g i j.
Proof.
  intros Hi Hj. unfold entry. simpl.
  rewrite (nth_map_seq (fun i => map (fun j => g i j) (seq 0 c)) r i []) by exact Hi.
  exact (nth_map_seq (fun j => g i j) c j 0 Hj).
Qed.

(* ================================================================== *)
(** * What the odd-even ratio reads *)

Lemma broadcast1_same_length (op : Q -> Q -> Q) (a b : list Q) :
  length a = length b ->
  broadcast1 op a b
  = Ok (map (fun i => op (nth i a 0) (nth i b 0)) (seq 0 (length a))).
Proof.
  intros H. unfold broadcast1. rewrite <- H, broadcast_dim_same.
  f_equal. apply map_ext_in. intros i Hi. apply in_seq in Hi.
  rewrite !broadcast_nth_inside by lia. reflexivity.
Qed.

Lemma broadcast1_rows {A : Type} (op : Q -> Q -> Q) (f g : A -> Q) (l : list A) :
  broadcast1 op (map f l) (map g l) = Ok (map (fun r => op (f r) (g r)) l).
Proof.
  rewrite broadcast1_same_length by now rewrite !length_map.
  f_equal. rewrite length_map.
  induction l as [|a l IH]; [reflexivity|].
  simpl. f_equal. rewrite <- seq_shift, map_map. exact IH.
Qed.

(** On every matrix with at least two columns, hence on every matrix of at
    least 20 harmonics, [odd_even_ratio] returns for each row the quotient of
    the means of the one-entry selections [x1] and [x2]. *)
Lemma odd_even_ratio_first_two (harmonics_amp : ndarray) :
  (2 <= shape1 harmonics_amp)%nat ->
  odd_even_ratio harmonics_amp
  = Ok (reshape_column
          (map (fun r => mean [nth 0 r 0] / mean [nth 1 r 0]) (rows harmonics_amp))).
Proof.
  intros Hc. unfold odd_even_ratio, take_columns.
  change (arange 0 20 20) with [0%nat]. change (arange 1 20 20) with [1%nat].
  simpl forallb.
  replace (0 <? shape1 harmonics_amp)%nat with true
    by (symmetry; apply Nat.ltb_lt; lia).
  replace (1 <? shape1 harmonics_amp)%nat with true
    by (symmetry; apply Nat.ltb_lt; lia).
  cbv beta iota delta [bind andb]. unfold mean_axis1. cbn [rows].
  rewrite !map_map. rewrite broadcast1_rows. reflexivity.
Qed.

Lemma mean_singleton (x : Q) : mean [x] == x.
Proof.
  unfold mean, Qsum. simpl. field.
Qed.

(* ================================================================== *)
(** * What the tristimulus sums *)

Lemma combine_map_map {A B C : Type} (f : A -> B) (g : A -> C) (l : list A) :
  combine (map f l) (map g l) = map (fun x => (f x, g x)) l.
Proof. induction l as [|a l IH]; simpl; [reflexivity|now rewrite IH]. Qed.

(** On every matrix with at least four columns, hence on every matrix of at
    least 20 harmonics, [tristiumulus] returns for each row the three
    quotients by the sum of the whole row: of the first entry, of the sum of
    the next three, and of the sum of the slice [4:9], the orders 5 to 9. *)
Lemma tristiumulus_rows (harmonics_amp : ndarray) :
  (4 <= shape1 harmonics_amp)%nat ->
  tristiumulus harmonics_amp
  = Ok (mk_ndarray 3
          (map (fun r =>
                  [ nth 0 r 0 / Qsum r;
                    Qsum [nth 1 r 0; nth 2 r 0; nth 3 r 0] / Qsum r;
                    Qsum (firstn 5 (skipn 4 r)) / Qsum r ])
               (rows harmonics_amp))).
Proof.
  intros Hc. unfold tristiumulus, column, take_columns, sum_axis1, slice_columns.
  simpl forallb.
  replace (0 <? shape1 harmonics_amp)%nat with true
    by (symmetry; apply Nat.ltb_lt; lia).
  replace (1 <? shape1 harmonics_amp)%nat with true
    by (symmetry; apply Nat.ltb_lt; lia).
  replace (2 <? shape1 harmonics_amp)%nat with true
    by (symmetry; apply Nat.ltb_lt; lia).
  replace (3 <? shape1 harmonics_amp)%nat with true
    by (symmetry; apply Nat.ltb_lt; lia).
  cbn [andb]. cbv beta iota delta [bind]. cbn [rows]. rewrite !map_map.
  change (9 - 4)%nat with 5%nat.
  rewrite !broadcast1_rows.
  unfold hstack, reshape_column, shape0. cbv beta iota delta [bind]. cbn [rows shape1].
  rewrite !map_map, !length_map, Nat.eqb_refl. cbn [rows shape1].
  rewrite combine_map_map, map_map, length_map, Nat.eqb_refl.
  rewrite combine_map_map, map_map. reflexivity.
Qed.

(* ================================================================== *)
(** * The high-pass filter *)

(** Once the bin frequencies exist, a filter with one gain per bin is
    applied entry by entry and nothing raises. *)
Lemma apply_filter (s : ndarray) (freqs filter : list Q) :
  spectral_frequencies (_get_window_from_spectrum s) 20 false
    POWER_FREQUENCY SAMPLING_RATE = Ok freqs ->
  length filter = length freqs ->
  broadcast2 Qmult s (row_vector filter)
  = Ok (mk_ndarray (shape1 s)
          (map (fun i => map (fun j => entry s i j * nth j filter 0) (seq 0 (shape1 s)))
               (seq 0 (shape0 s)))).
Proof.
  intros Hf Hl. apply bins_of_spectrum_inv in Hf. destruct Hf as [Hlen _].
  apply broadcast2_row_vector. congruence.
Qed.

Lemma high_pass_filter_one_bin (s : ndarray) (t : string) (f : Q) :
  shape1 s = 1%nat -> high_pass_filter s t f = Raise ZeroDivisionError.
Proof.
  intros E. unfold high_pass_filter.
  now rewrite (one_bin_spectrum_raises s 20 POWER_FREQUENCY SAMPLING_RATE E).
Qed.

(** C5, as the program has it.  On a spectrum whose column count is not 1
    the filter of type ["none"] returns the spectrum itself, whatever the
    cutoff.  On a spectrum with exactly one column the implied window is 0,
    the bin frequencies cannot be computed and the call raises a division
    by zero. *)
Theorem high_pass_filter_none_identity (s : ndarray) (f : Q) :
  wf_ndarray s ->
  (shape1 s <> 1%nat -> high_pass_filter s "none" f = Ok s) /\
  (shape1 s = 1%nat -> high_pass_filter s "none" f = Raise ZeroDivisionError).
Proof.
  intros Hwf. split; [|apply high_pass_filter_one_bin].
  intros Hc.
  destruct (bins_of_spectrum s 20 POWER_FREQUENCY SAMPLING_RATE Hc) as [freqs [Hf Hl]].
  unfold high_pass_filter. rewrite Hf. simpl.
  rewrite (apply_filter s freqs _ Hf) by now rewrite length_map.
  f_equal. destruct s as [c rs]. simpl in *. f_equal.
  rewrite <- (rows_as_entries (mk_ndarray c rs) Hwf) at 2. simpl.
  apply map_ext_in. intros i _. apply map_ext_in. intros j Hj.
  apply in_seq in Hj.
  rewrite (nth_map_inside (fun _ => 1) freqs j 0 0) by lia.
  apply Qmult_one_r.
Qed.

Lemma high_pass_filter_none_identity_witness :
  wf_ndarray spectrum_3_bins /\
  high_pass_filter spectrum_3_bins "none" 1000 = Ok spectrum_3_bins.
Proof.
  assert (Hwf : wf_ndarray spectrum_3_bins).
  { unfold wf_ndarray, spectrum_3_bins; simpl. repeat constructor. }
  split; [exact Hwf|].
  apply (proj1 (high_pass_filter_none_identity spectrum_3_bins 1000 Hwf)).
  simpl. discriminate.
Defined.

(** C5, as stated, fails on a one-column spectrum: the filter of type
    ["none"] does not return it. *)
Lemma high_pass_filter_none_one_bin :
  high_pass_filter spectrum_1_bin "none" 1000 <> Ok spectrum_1_bin.
Proof. vm_compute. discriminate. Qed.

(** The filter of type ["zero"], once the bin frequencies exist. *)
Lemma zero_filter_bins (s : ndarray) (cutoff : Q) (freqs : list Q) :
  spectral_frequencies (_get_window_from_spectrum s) 20 false
    POWER_FREQUENCY SAMPLING_RATE = Ok freqs ->
  exists out,
    high_pass_filter s "zero" cutoff = Ok out /\
    shape0 out = shape0 s /\ shape1 out = shape1 s /\ wf_ndarray out /\
    forall i j, (i < shape0 s)%nat -> (j < shape1 s)%nat ->
      (nth j freqs 0 < cutoff -> entry out i j == 0) /\
      (cutoff <= nth j freqs 0 -> entry out i j = entry s i j).
Proof.
  intros Hf. unfold high_pass_filter. rewrite Hf. simpl.
  rewrite (apply_filter s freqs _ Hf) by now rewrite length_map.
  destruct (bins_of_spectrum_inv _ _ _ _ _ Hf) as [Hl _].
  eexists. split; [reflexivity|]. split; [|split; [|split]].
  - unfold shape0. simpl. now rewrite length_map, length_seq.
  - reflexivity.
  - unfold wf_ndarray. simpl. apply Forall_forall. intros r Hr.
    apply in_map_iff in Hr. destruct Hr as [i [<- _]].
    now rewrite length_map, length_seq.
  - intros i j Hi Hj.
    rewrite (entry_of_table
               (fun i j => entry s i j *
                  nth j (map (fun f => if Qlt_bool f cutoff then 0 else 1) freqs) 0)
               (shape0 s) (shape1 s) i j Hi Hj).
    rewrite (nth_map_inside (fun f => if Qlt_bool f cutoff then 0 else 1) freqs j 0 0)
      by lia.
    split; intros Hc.
    + apply Qlt_bool_iff in Hc. rewrite Hc. apply Qmult_zero_r.
    + apply Qlt_bool_false_iff in Hc. rewrite Hc. apply Qmult_one_r.
Qed.

(** C6, as the program has it.  On a spectrum whose column count is not 1,
    with [freqs] the bin frequencies of its implied window, the filter of type
    ["zero"] returns a spectrum of the same shape in which every bin whose
    frequency is strictly below the cutoff is 0 and every bin whose frequency
    is at or above the cutoff is the input amplitude.  On a one-column
    spectrum the call raises a division by zero. *)
Theorem high_pass_filter_zero_bins (s : ndarray) (cutoff : Q) :
  (shape1 s <> 1%nat ->
   exists freqs out,
     spectral_frequencies (_get_window_from_spectrum s) 20 false
       POWER_FREQUENCY SAMPLING_RATE = Ok freqs /\
     length freqs = shape1 s /\
     high_pass_filter s "zero" cutoff = Ok out /\
     shape0 out = shape0 s /\ shape1 out = shape1 s /\ wf_ndarray out /\
     forall i j, (i < shape0 s)%nat -> (j < shape1 s)%nat ->
       (nth j freqs 0 < cutoff -> entry out i j == 0) /\
       (cutoff <= nth j freqs 0 -> entry out i j = entry s i j)) /\
  (shape1 s = 1%nat -> high_pass_filter s "zero" cutoff = Raise ZeroDivisionError).
Proof.
  split; [|apply high_pass_filter_one_bin].
  intros Hc.
  destruct (bins_of_spectrum s 20 POWER_FREQUENCY SAMPLING_RATE Hc) as [freqs [Hf Hl]].
  destruct (zero_filter_bins s cutoff freqs Hf) as [out Hout].
  exists freqs, out. split; [exact Hf|]. split; [exact Hl|exact Hout].
Qed.

Lemma high_pass_filter_zero_bins_witness :
  exists freqs out,
    spectral_frequencies (_get_window_from_spectrum spectrum_3_bins) 20 false
      POWER_FREQUENCY SAMPLING_RATE = Ok freqs /\
    length freqs = 3%nat /\
    high_pass_filter spectrum_3_bins "zero" 1000 = Ok out /\
    shape0 out = 2%nat /\ shape1 out = 3%nat /\ wf_ndarray out /\
    forall i j, (i < 2)%nat -> (j < 3)%nat ->
      (nth j freqs 0 < 1000 -> entry out i j == 0) /\
      (1000 <= nth j freqs 0 -> entry out i j = entry spectrum_3_bins i j).
Proof.
  apply (proj1 (high_pass_filter_zero_bins spectrum_3_bins 1000)).
  simpl. discriminate.
Defined.

(** C6, as stated, fails on a one-column spectrum: its only bin, the one
    of 0 Hz, is not set to 0 under a cutoff of 1000 Hz, as no spectrum is
    returned. *)
Lemma high_pass_filter_zero_one_bin :
  ~ (exists out, high_pass_filter spectrum_1_bin "zero" 1000 = Ok out /\
                 entry out 0 0 == 0).
Proof.
  intros [out [H _]]. vm_compute in H. discriminate.
Qed.

Lemma filter_type_cases (t : string) :
  In t supported_filter_types \/
  (~ In t supported_filter_types /\
   String.eqb t "zero" = false /\ String.eqb t "linear" = false /\
   String.eqb t "quadratic" = false /\ String.eqb t "none" = false).
Proof.
  unfold supported_filter_types. simpl.
  destruct (String.eqb t "zero") eqn:E1; [apply String.eqb_eq in E1; auto|].
  destruct (String.eqb t "linear") eqn:E2; [apply String.eqb_eq in E2; auto|].
  destruct (String.eqb t "quadratic") eqn:E3; [apply String.eqb_eq in E3; auto|].
  destruct (String.eqb t "none") eqn:E4; [apply String.eqb_eq in E4; auto 6|].
  right. repeat split; auto.
  apply String.eqb_neq in E1, E2, E3, E4.
  intros [H|[H|[H|[H|[]]]]]; congruence.
Qed.

(** C7, as the program has it.  On a spectrum whose column count is not 1,
    [high_pass_filter] returns a result for each of the four filter types
    zero, linear, quadratic and none, and for any other filter type it raises
    the error that names that type; so it fails exactly when the type is not
    one of the four.  On a one-column spectrum it raises a division by zero
    for every filter type. *)
Theorem high_pass_filter_fails_iff_unsupported (s : ndarray) (t : string) (f : Q) :
  (shape1 s <> 1%nat ->
     (In t supported_filter_types -> exists out, high_pass_filter s t f = Ok out) /\
     (~ In t supported_filter_types ->
        high_pass_filter s t f = Raise (ValueError_filter_type t)) /\
     ((exists e, high_pass_filter s t f = Raise e) <-> ~ In t supported_filter_types)) /\
  (shape1 s = 1%nat -> high_pass_filter s t f = Raise ZeroDivisionError).
Proof.
  split; [|apply high_pass_filter_one_bin].
  intros Hc.
  destruct (bins_of_spectrum s 20 POWER_FREQUENCY SAMPLING_RATE Hc) as [freqs [Hf Hl]].
  assert (Hin : In t supported_filter_types -> exists out, high_pass_filter s t f = Ok out).
  { intros Hin. unfold high_pass_filter. rewrite Hf. simpl.
    unfold supported_filter_types in Hin. simpl in Hin.
    destruct Hin as [<-|[<-|[<-|[<-|[]]]]]; simpl;
      (rewrite (apply_filter s freqs _ Hf) by now rewrite length_map);
      eexists; reflexivity. }
  assert (Hout : ~ In t supported_filter_types ->
                 high_pass_filter s t f = Raise (ValueError_filter_type t)).
  { intros Hn. destruct (filter_type_cases t) as [Hin'|[_ [E1 [E2 [E3 E4]]]]];
      [contradiction|].
    unfold high_pass_filter. rewrite Hf. simpl. now rewrite E1, E2, E3, E4. }
  split; [exact Hin|]. split; [exact Hout|].
  split.
  - intros [e He] Hin'. destruct (Hin Hin') as [out Ho]. congruence.
  - intros Hn. eexists. apply Hout, Hn.
Qed.

Lemma high_pass_filter_fails_iff_unsupported_witness :
  (exists out, high_pass_filter spectrum_3_bins "linear" 1000 = Ok out) /\
  high_pass_filter spectrum_3_bins "cubic" 1000 = Raise (ValueError_filter_type "cubic").
Proof.
  assert (Hc : shape1 spectrum_3_bins <> 1%nat) by (simpl; discriminate).
  destruct (proj1 (high_pass_filter_fails_iff_unsupported spectrum_3_bins "linear" 1000) Hc)
    as [Hin _].
  destruct (proj1 (high_pass_filter_fails_iff_unsupported spectrum_3_bins "cubic" 1000) Hc)
    as [_ [Hout _]].
  split.
  - apply Hin. unfold supported_filter_types. simpl. auto.
  - apply Hout. unfold supported_filter_types. simpl.
    intros [H|[H|[H|[H|[]]]]]; discriminate.
Defined.

(** C7, as stated, fails on a one-column spectrum: the supported filter
    type ["zero"] does not return a result there. *)
Lemma high_pass_filter_zero_one_bin_fails :
  In "zero"%string supported_filter_types /\
  ~ (exists out, high_pass_filter spectrum_1_bin "zero" 1000 = Ok out).
Proof.
  split; [unfold supported_filter_types; simpl; auto|].
  intros [out H]. vm_compute in H. discriminate.
Qed.

(* ================================================================== *)
(** * The mains amplitude *)

Lemma first_index_none (p : Q -> bool) (l : list Q) :
  first_index p l = None <-> forall x, In x l -> p x = false.
Proof.
  induction l as [|a l IH]; simpl.
  - split; [intros _ x []|reflexivity].
  - destruct (p a) eqn:E.
    + split; [discriminate|]. intros H. rewrite (H a) in E by auto. discriminate.
    + destruct (first_index p l) as [k|]; simpl.
      * split; [discriminate|]. intros H.
        assert (Hn : Some k = None) by (apply IH; intros x Hx; apply H; auto).
        discriminate.
      * split; [|reflexivity]. intros _ x [<-|Hx]; [exact E|].
        now apply (proj1 IH).
Qed.

Lemma first_index_some (p : Q -> bool) (l : list Q) (k : nat) :
  first_index p l = Some k ->
  (k < length l)%nat /\ p (nth k l 0) = true /\
  forall j, (j < k)%nat -> p (nth j l 0) = false.
Proof.
  revert k. induction l as [|a l IH]; simpl; intros k H; [discriminate|].
  destruct (p a) eqn:E.
  - injection H as <-. repeat split; [lia|exact E|]. intros j Hj. lia.
  - destruct (first_index p l) as [k'|]; simpl in H; [|discriminate].
    injection H as <-. destruct (IH k' eq_refl) as [Hk [Hp Hlt]].
    repeat split; [lia|exact Hp|].
    intros [|j] Hj; [exact E|]. apply Hlt. lia.
Qed.

(** The frequency looked up by [_mains_frequency_amplitude]: the requested
    one, or the peak amplitude frequency when none is requested. *)
Lemma mains_frequency_amplitude_unfold
      (s : ndarray) (mains_frequency : option Q) (pf sr : Q) (freqs : list Q) (f : Q) :
  spectral_frequencies (_get_window_from_spectrum s) 20 false pf sr = Ok freqs ->
  match mains_frequency with
  | None => _peak_amplitude_frequency s freqs
  | Some g => Ok g
  end = Ok f ->
  _mains_frequency_amplitude s mains_frequency pf sr
  = match first_index (fun x => Qeq_bool x f) freqs with
    | None => Raise (ValueError_mains_frequency f)
    | Some idx => take_columns [idx] s
    end.
Proof.
  intros Hf Hm. unfold _mains_frequency_amplitude. rewrite Hf. simpl.
  rewrite Hm. reflexivity.
Qed.

(** The three cases of the lookup, shared by the statements below. *)
Lemma mains_lookup_cases
        (s : ndarray) (mains_frequency : option Q) (pf sr : Q) (freqs : list Q) (f : Q) :
  spectral_frequencies (_get_window_from_spectrum s) 20 false pf sr = Ok freqs ->
  match mains_frequency with
  | None => _peak_amplitude_frequency s freqs
  | Some g => Ok g
  end = Ok f ->
  ((exists e, _mains_frequency_amplitude s mains_frequency pf sr = Raise e)
   <-> ~ (exists g, In g freqs /\ g == f)) /\
  (~ (exists g, In g freqs /\ g == f) ->
   _mains_frequency_amplitude s mains_frequency pf sr
   = Raise (ValueError_mains_frequency f)) /\
  ((exists g, In g freqs /\ g == f) ->
   exists idx,
     (idx < shape1 s)%nat /\ nth idx freqs 0 == f /\
     (forall j, (j < idx)%nat -> ~ nth j freqs 0 == f) /\
     _mains_frequency_amplitude s mains_frequency pf sr
     = Ok (mk_ndarray 1 (map (fun r => [nth idx r 0]) (rows s)))).
Proof.
  intros Hf Hm.
  rewrite (mains_frequency_amplitude_unfold s mains_frequency pf sr freqs f Hf Hm).
  destruct (bins_of_spectrum_inv _ _ _ _ _ Hf) as [Hl _].
  destruct (first_index (fun x => Qeq_bool x f) freqs) as [idx|] eqn:E.
  - apply first_index_some in E. destruct E as [Hk [Hp Hlt]].
    apply Qeq_bool_iff in Hp.
    assert (Hmem : exists g, In g freqs /\ g == f).
    { exists (nth idx freqs 0). split; [apply nth_In; exact Hk|exact Hp]. }
    assert (Hcol : take_columns [idx] s
                   = Ok (mk_ndarray 1 (map (fun r => [nth idx r 0]) (rows s)))).
    { unfold take_columns. simpl.
      replace (idx <? shape1 s)%nat with true
        by (symmetry; apply Nat.ltb_lt; lia).
      reflexivity. }
    rewrite Hcol. split; [|split].
    + split; [intros [e He]; discriminate|intros Hn; contradiction].
    + intros Hn. contradiction.
    + intros _. exists idx.
      split; [lia|]. split; [exact Hp|]. split; [|reflexivity].
      intros j Hj Hq. apply Qeq_bool_iff in Hq.
      rewrite (Hlt j Hj) in Hq. discriminate.
  - assert (Hn : ~ (exists g, In g freqs /\ g == f)).
    { intros [g [Hg Hq]]. apply Qeq_bool_iff in Hq.
      rewrite (proj1 (first_index_none _ _) E g Hg) in Hq. discriminate. }
    split; [|split].
    + split; [intros _; exact Hn|intros _; eexists; reflexivity].
    + reflexivity.
    + intros Hy. contradiction.
Qed.

Lemma mains_frequency_amplitude_one_bin_raises
      (s : ndarray) (mains_frequency : option Q) (pf sr : Q) :
  shape1 s = 1%nat ->
  _mains_frequency_amplitude s mains_frequency pf sr = Raise ZeroDivisionError.
Proof.
  intros E. unfold _mains_frequency_amplitude.
  now rewrite (one_bin_spectrum_raises s 20 pf sr E).
Qed.

(** C3, as the program has it.  Take a spectrum whose column count is not
    1, so that its implied window has a bin-frequency vector [freqs], and let
    [f] be the resolved mains frequency: the requested one, or the result of
    the peak vote when none is requested.  Then
    [_mains_frequency_amplitude] fails exactly when [f] is not a member of
    [freqs], and the error it raises names [f]; when [f] is a member, it
    returns the one-column array of the amplitudes at the first bin equal to
    [f].  On a one-column spectrum the call raises a division by zero. *)
Theorem mains_frequency_amplitude_exact_bin
        (s : ndarray) (mains_frequency : option Q) (pf sr : Q) :
  (shape1 s <> 1%nat ->
   exists freqs,
     spectral_frequencies (_get_window_from_spectrum s) 20 false pf sr = Ok freqs /\
     forall f,
       match mains_frequency with
       | None => _peak_amplitude_frequency s freqs
       | Some g => Ok g
       end = Ok f ->
       ((exists e, _mains_frequency_amplitude s mains_frequency pf sr = Raise e)
        <-> ~ (exists g, In g freqs /\ g == f)) /\
       (~ (exists g, In g freqs /\ g == f) ->
        _mains_frequency_amplitude s mains_frequency pf sr
        = Raise (ValueError_mains_frequency f)) /\
       ((exists g, In g freqs /\ g == f) ->
        exists idx,
          (idx < shape1 s)%nat /\ nth idx freqs 0 == f /\
          (forall j, (j < idx)%nat -> ~ nth j freqs 0 == f) /\
          _mains_frequency_amplitude s mains_frequency pf sr
          = Ok (mk_ndarray 1 (map (fun r => [nth idx r 0]) (rows s))))) /\
  (shape1 s = 1%nat ->
   _mains_frequency_amplitude s mains_frequency pf sr = Raise ZeroDivisionError).
Proof.
  split; [|apply mains_frequency_amplitude_one_bin_raises].
  intros Hc. destruct (bins_of_spectrum s 20 pf sr Hc) as [freqs [Hf _]].
  exists freqs. split; [exact Hf|]. intros f Hm.
  exact (mains_lookup_cases s mains_frequency pf sr freqs f Hf Hm).
Qed.

(** The scenario of the specification: 13 Hz is not a bin of the window
    implied by a three-column spectrum (bins 0, 1600 and 3200 Hz), and the
    lookup fails with the error naming 13. *)
Lemma mains_frequency_amplitude_exact_bin_witness :
  _mains_frequency_amplitude spectrum_3_bins (Some 13) POWER_FREQUENCY SAMPLING_RATE
  = Raise (ValueError_mains_frequency 13).
Proof.
  assert (Hc : shape1 spectrum_3_bins <> 1%nat) by (simpl; discriminate).
  destruct (proj1 (mains_frequency_amplitude_exact_bin
                     spectrum_3_bins (Some 13) POWER_FREQUENCY SAMPLING_RATE) Hc)
    as [freqs [Hf H]].
  apply (H 13 eq_refl).
  vm_compute in Hf. injection Hf as <-.
  intros [g [[<-|[<-|[<-|[]]]] Hg]]; vm_compute in Hg; discriminate.
Defined.

(** C3, as stated, fails on a one-column spectrum: the lookup of 13 Hz
    neither raises the error naming 13 nor returns a column. *)
Lemma mains_frequency_amplitude_one_bin :
  _mains_frequency_amplitude spectrum_1_bin (Some 13) POWER_FREQUENCY SAMPLING_RATE
  <> Raise (ValueError_mains_frequency 13) /\
  ~ (exists col,
       _mains_frequency_amplitude spectrum_1_bin (Some 13) POWER_FREQUENCY SAMPLING_RATE
       = Ok col).
Proof.
  split.
  - vm_compute. discriminate.
  - intros [col H]. vm_compute in H. discriminate.
Qed.

(** C4, as the program has it.  [harmonics_energy_distribution] and
    [total_harmonic_distortion] take the harmonic amplitudes and the spectrum
    only, and look the mains amplitude up at 50 Hz with the power frequency
    50 Hz and the sampling rate 6400.  Hence, on a spectrum whose column count
    is not 1, when 50 is not a member of the bin frequencies of the implied
    window, both raise the error naming 50.  On a one-column spectrum both
    raise a division by zero. *)
Theorem harmonic_features_use_default_mains (rms : ndarray -> ndarray) (h s : ndarray) :
  harmonics_energy_distribution h s
  = (x0 <- _mains_frequency_amplitude s (Some 50) 50 6400 ;; broadcast2 Qdiv h x0) /\
  total_harmonic_distortion rms h s
  = (x0 <- _mains_frequency_amplitude s (Some 50) 50 6400 ;; broadcast2 Qdiv (rms h) x0) /\
  (shape1 s <> 1%nat ->
   exists freqs,
     spectral_frequencies (_get_window_from_spectrum s) 20 false 50 6400 = Ok freqs /\
     (~ (exists g, In g freqs /\ g == 50) ->
      harmonics_energy_distribution h s = Raise (ValueError_mains_frequency 50) /\
      total_harmonic_distortion rms h s = Raise (ValueError_mains_frequency 50))) /\
  (shape1 s = 1%nat ->
   harmonics_energy_distribution h s = Raise ZeroDivisionError /\
   total_harmonic_distortion rms h s = Raise ZeroDivisionError).
Proof.
  split; [reflexivity|]. split; [reflexivity|].
  unfold harmonics_energy_distribution, total_harmonic_distortion.
  change POWER_FREQUENCY with 50. change SAMPLING_RATE with 6400.
  split.
  - intros Hc. destruct (bins_of_spectrum s 20 50 6400 Hc) as [freqs [Hf _]].
    exists freqs. split; [exact Hf|]. intros Hn.
    destruct (mains_lookup_cases s (Some 50) 50 6400 freqs 50 Hf eq_refl)
      as [_ [Hr _]].
    rewrite (Hr Hn). split; reflexivity.
  - intros E.
    rewrite (mains_frequency_amplitude_one_bin_raises s (Some 50) 50 6400 E).
    split; reflexivity.
Qed.

Lemma harmonic_features_use_default_mains_witness :
  harmonics_energy_distribution spectrum_3_bins spectrum_3_bins
  = Raise (ValueError_mains_frequency 50) /\
  total_harmonic_distortion (fun m => m) spectrum_3_bins spectrum_3_bins
  = Raise (ValueError_mains_frequency 50).
Proof.
  assert (Hc : shape1 spectrum_3_bins <> 1%nat) by (simpl; discriminate).
  destruct (proj1 (proj2 (proj2 (harmonic_features_use_default_mains
                                   (fun m => m) spectrum_3_bins spectrum_3_bins))) Hc)
    as [freqs [Hf H]].
  apply H. vm_compute in Hf. injection Hf as <-.
  intros [g [[<-|[<-|[<-|[]]]] Hg]]; vm_compute in Hg; discriminate.
Defined.

(** C4, as stated, fails on a one-column spectrum: its implied window
    produces no bin frequency at all, 50 Hz included, and the error raised is
    not the one naming the mains frequency. *)
Lemma harmonics_energy_distribution_one_bin :
  ~ (exists freqs,
       spectral_frequencies (_get_window_from_spectrum spectrum_1_bin) 20 false
         POWER_FREQUENCY SAMPLING_RATE = Ok freqs /\
       exists g, In g freqs /\ g == 50) /\
  harmonics_energy_distribution spectrum_1_bin spectrum_1_bin
  <> Raise (ValueError_mains_frequency 50) /\
  total_harmonic_distortion (fun m => m) spectrum_1_bin spectrum_1_bin
  <> Raise (ValueError_mains_frequency 50).
Proof.
  split; [|split].
  - intros [freqs [H _]]. vm_compute in H. discriminate.
  - vm_compute. discriminate.
  - vm_compute. discriminate.
Qed.

(* ================================================================== *)
(** * First best index *)

Section ArgBest.
Context {A : Type} (better : A -> A -> bool) (d : A).

Hypothesis better_asym : forall x y, better x y = true -> better y x = false.
Hypothesis better_trans :
  forall x b y, better x b = true -> better y b = false -> better x y = true.

Lemma better_irrefl (x : A) : better x x = false.
Proof.
  destruct (better x x) eqn:E; [|reflexivity].
  rewrite (better_asym x x E) in E. discriminate.
Qed.

Lemma first_best_singleton (x : A) : first_best better d [x] 0.
Proof.
  unfold first_best. simpl. split; [lia|]. split.
  - intros [|j] Hj; [apply better_irrefl|lia].
  - intros j Hj. lia.
Qed.

(** One step of the scan keeps the invariant: the candidate is the first
    best index of the entries read so far. *)
Lemma first_best_snoc (pre : list A) (besti : nat) (x : A) :
  first_best better d pre besti ->
  first_best better d (pre ++ [x])
    (if better x (nth besti pre d) then length pre else besti).
Proof.
  intros [Hk [Hall Hbefore]].
  assert (Hnth : forall j, (j < length pre)%nat -> nth j (pre ++ [x]) d = nth j pre d).
  { intros j Hj. now apply app_nth1. }
  assert (Hlast : nth (length pre) (pre ++ [x]) d = x).
  { rewrite app_nth2 by lia. now rewrite Nat.sub_diag. }
  unfold first_best. rewrite length_app. simpl.
  destruct (better x (nth besti pre d)) eqn:E.
  - rewrite Hlast. split; [lia|]. split.
    + intros j Hj. destruct (Nat.eq_dec j (length pre)) as [->|Hne].
      * rewrite Hlast. apply better_irrefl.
      * rewrite Hnth by lia. apply better_asym.
        apply (better_trans x (nth besti pre d)); [exact E|apply Hall; lia].
    + intros j Hj. rewrite Hnth by lia.
      apply (better_trans x (nth besti pre d)); [exact E|apply Hall; lia].
  - rewrite (Hnth besti Hk). split; [lia|]. split.
    + intros j Hj. destruct (Nat.eq_dec j (length pre)) as [->|Hne].
      * rewrite Hlast. exact E.
      * rewrite Hnth by lia. apply Hall. lia.
    + intros j Hj. rewrite Hnth by lia. now apply Hbefore.
Qed.

Lemma arg_best_from_first_best (t pre : list A) (best : A) (besti i : nat) :
  i = length pre -> best = nth besti pre d ->
  first_best better d pre besti ->
  first_best better d (pre ++ t) (arg_best_from better best besti i t).
Proof.
  revert pre best besti i.
  induction t as [|x t IH]; intros pre best besti i Hi Hbest Hinv.
  - simpl. now rewrite app_nil_r.
  - simpl. pose proof (first_best_snoc pre besti x Hinv) as Hstep.
    rewrite <- Hbest in Hstep.
    replace (pre ++ x :: t) with ((pre ++ [x]) ++ t)
      by (rewrite <- app_assoc; reflexivity).
    assert (Hlen : S i = length (pre ++ [x]))
      by (rewrite length_app; simpl; lia).
    destruct (better x best) eqn:E.
    + apply IH; [exact Hlen| |subst i; exact Hstep].
      subst i. rewrite app_nth2 by lia. now rewrite Nat.sub_diag.
    + apply IH; [exact Hlen| |exact Hstep].
      rewrite Hbest. symmetry. apply app_nth1. apply Hinv.
Qed.

(** On a non-empty sequence the scan returns the first best index. *)
Lemma arg_best_first_best (l : list A) :
  l <> [] -> exists k, arg_best better l = Ok k /\ first_best better d l k.
Proof.
  destruct l as [|x t]; [congruence|]. intros _.
  eexists. split; [reflexivity|].
  exact (arg_best_from_first_best t [x] x 0 1 eq_refl eq_refl (first_best_singleton x)).
Qed.

Lemma first_best_unique (l : list A) (k k' : nat) :
  first_best better d l k -> first_best better d l k' -> k = k'.
Proof.
  intros [Hk [Ha Hb]] [Hk' [Ha' Hb']].
  destruct (Nat.lt_trichotomy k k') as [H|[H|H]]; [|exact H|].
  - pose proof (Hb' k H) as E. rewrite (Ha k' Hk') in E. discriminate.
  - pose proof (Hb k' H) as E. rewrite (Ha' k Hk) in E. discriminate.
Qed.
End ArgBest.

(* ================================================================== *)
(** * Harmonic bin selection *)

Lemma Qlt_bool_asym (x y : Q) : Qlt_bool x y = true -> Qlt_bool y x = false.
Proof.
  rewrite Qlt_bool_iff, Qlt_bool_false_iff. apply Qlt_le_weak.
Qed.

Lemma Qlt_bool_trans (x b y : Q) :
  Qlt_bool x b = true -> Qlt_bool y b = false -> Qlt_bool x y = true.
Proof.
  rewrite !Qlt_bool_iff, Qlt_bool_false_iff. apply Qlt_le_trans.
Qed.

Lemma arange_from_one (n : nat) : arange 1 (n + 1) 1 = seq 1 n.
Proof.
  unfold arange.
  replace ((n + 1 - 1 + 1 - 1) / 1)%nat with n by (rewrite Nat.div_1_r; lia).
  rewrite <- seq_shift. apply map_ext. intros k. lia.
Qed.

Lemma mapM_ext_in {A B : Type} (f g : A -> result B) (l : list A) :
  (forall a, In a l -> f a = g a) -> mapM f l = mapM g l.
Proof.
  induction l as [|a l IH]; intros H; [reflexivity|].
  simpl. rewrite (H a) by (left; reflexivity).
  rewrite IH by (intros b Hb; apply H; right; exact Hb). reflexivity.
Qed.

Lemma mapM_seq_exists {B : Type} (f : nat -> result B) (P : nat -> B -> Prop)
      (d : B) (n start : nat) :
  (forall i, (start <= i < start + n)%nat -> exists b, f i = Ok b /\ P i b) ->
  exists bs, mapM f (seq start n) = Ok bs /\ length bs = n /\
             forall i, (i < n)%nat -> P (start + i)%nat (nth i bs d).
Proof.
  revert start. induction n as [|n IH]; intros start H.
  - exists []. simpl. repeat split. intros i Hi. lia.
  - destruct (H start) as [b [Hb Pb]]; [lia|].
    destruct (IH (S start)) as [bs [Hbs [Hlen Hnth]]].
    { intros i Hi. apply H. lia. }
    exists (b :: bs). simpl. rewrite Hb. simpl. rewrite Hbs. simpl.
    split; [reflexivity|]. split; [now rewrite Hlen|].
    intros [|i] Hi.
    + now rewrite Nat.add_0_r.
    + replace (start + S i)%nat with (S start + i)%nat by lia. apply Hnth. lia.
Qed.

(** One position of the last axis of the stacked distances: the distances
    of all the bins to one harmonic. *)
Lemma distances_to_harmonic (sf : list Q) (n i : nat) (pf : Q) :
  (i < n)%nat ->
  map (fun row => nth i row 0)
      (map (fun row => map (fun p => Qabs (fst p - snd p))
                           (combine row (map (fun i => inject_Z (Z.of_nat i) * pf)
                                             (arange 1 (n + 1) 1))))
           (map (fun f => repeat f n)
                (map (fun f => if Qlt_bool f 0 then 0 else f) sf)))
  = map (harmonic_distance pf (S i)) sf.
Proof.
  intros Hi. rewrite arange_from_one, !map_map. apply map_ext. intros f.
  set (c := if Qlt_bool f 0 then 0 else f).
  set (h := map (fun i => inject_Z (Z.of_nat i) * pf) (seq 1 n)).
  assert (Hh : length h = n) by (unfold h; now rewrite length_map, length_seq).
  rewrite (nth_map_inside (fun p => Qabs (fst p - snd p))
                          (combine (repeat c n) h) i 0 (c, 0)).
  2:{ rewrite length_combine, repeat_length, Hh. lia. }
  rewrite combine_nth by now rewrite repeat_length.
  simpl. rewrite nth_repeat. unfold h.
  rewrite (nth_map_inside (fun i => inject_Z (Z.of_nat i) * pf) (seq 1 n) i 0 0%nat)
    by now rewrite length_seq.
  rewrite seq_nth by exact Hi. reflexivity.
Qed.

Lemma get_harmonics_indices_argmin (sf : list Q) (n : nat) (pf : Q) :
  (1 <= n)%nat ->
  _get_harmonics_indices sf n pf
  = mapM (fun i => argmin (map (harmonic_distance pf (S i)) sf)) (seq 0 n).
Proof.
  intros Hn. unfold _get_harmonics_indices.
  assert (Hstack : forall freqs,
             dstack_copies freqs n = Ok (map (fun f => repeat f n) freqs)).
  { intros freqs. unfold dstack_copies. destruct n; [lia|reflexivity]. }
  rewrite Hstack. cbv beta iota delta [bind]. unfold argmin_axis1.
  apply mapM_ext_in. intros i Hi. apply in_seq in Hi.
  f_equal. apply distances_to_harmonic. lia.
Qed.

Lemma Qabs_zero_inv (x : Q) : Qabs x <= 0 -> x == 0.
Proof.
  intros H. apply Qabs_Qle_condition in H. Lqa.lra.
Qed.

Lemma harmonic_distance_exact (pf : Q) (i : nat) (f : Q) :
  harmonic_distance pf i f == 0 <-> clamped f == harmonic_target pf i.
Proof.
  unfold harmonic_distance. split; intros H.
  - assert (E : clamped f - harmonic_target pf i == 0).
    { apply Qabs_zero_inv. rewrite H. apply Qle_refl. }
    Lqa.lra.
  - assert (E : clamped f - harmonic_target pf i == 0) by Lqa.lra.
    rewrite E. reflexivity.
Qed.

Lemma clamped_nonneg (f : Q) : 0 <= f -> clamped f = f.
Proof.
  intros H. unfold clamped.
  now rewrite (proj2 (Qlt_bool_false_iff f 0) H).
Qed.

(** C8, as the program has it.  For a non-empty frequency vector and [n >= 1],
    [_get_harmonics_indices] returns [n] indices, in harmonic order.  The
    [i]-th one (i = 1..n) is a bin whose distance to [i] times the power
    frequency, taken after the negative frequencies are replaced by 0, is
    minimal, and it is the first such bin: every earlier bin is strictly
    farther.  Hence, when a (clamped) bin frequency equals the target, the
    selected bin has exactly the target frequency; and among bins at the same
    distance the one of lowest index is selected, which in an increasing
    frequency vector is the one of lowest frequency. *)
Theorem harmonics_indices_first_nearest (sf : list Q) (n : nat) (pf : Q) :
  (1 <= n)%nat -> sf <> [] ->
  exists idx,
    _get_harmonics_indices sf n pf = Ok idx /\ length idx = n /\
    forall i, (1 <= i <= n)%nat ->
      let k := nth (i - 1) idx 0%nat in
      let dist := fun j => harmonic_distance pf i (nth j sf 0) in
      (k < length sf)%nat /\
      (forall j, (j < length sf)%nat -> dist k <= dist j) /\
      (forall j, (j < k)%nat -> dist k < dist j) /\
      ((exists j, (j < length sf)%nat /\
                  clamped (nth j sf 0) == harmonic_target pf i) ->
       clamped (nth k sf 0) == harmonic_target pf i) /\
      ((forall x, In x sf -> 0 <= x) ->
       (exists j, (j < length sf)%nat /\ nth j sf 0 == harmonic_target pf i) ->
       nth k sf 0 == harmonic_target pf i) /\
      (forall j, (j < length sf)%nat -> dist j == dist k ->
         (k <= j)%nat /\ (increasing sf -> nth k sf 0 <= nth j sf 0)).
Proof.
  intros Hn Hsf. rewrite (get_harmonics_indices_argmin sf n pf Hn).
  destruct (mapM_seq_exists
              (fun i => argmin (map (harmonic_distance pf (S i)) sf))
              (fun i k => first_best Qlt_bool 0 (map (harmonic_distance pf (S i)) sf) k)
              0%nat n 0%nat) as [idx [Hidx [Hlen Hnth]]].
  { intros i _. apply (arg_best_first_best Qlt_bool 0 Qlt_bool_asym Qlt_bool_trans).
    destruct sf; [congruence|discriminate]. }
  exists idx. split; [exact Hidx|]. split; [exact Hlen|].
  intros i Hi k dist.
  assert (Hfb : first_best Qlt_bool 0 (map (harmonic_distance pf i) sf) k).
  { specialize (Hnth (i - 1)%nat). simpl in Hnth.
    replace (S (i - 1)) with i in Hnth by lia. apply Hnth. lia. }
  destruct Hfb as [Hk [Hall Hbefore]]. rewrite length_map in Hk, Hall.
  assert (Hd : forall j, (j < length sf)%nat ->
                         nth j (map (harmonic_distance pf i) sf) 0 = dist j).
  { intros j Hj. apply nth_map_inside. exact Hj. }
  assert (Hmin : forall j, (j < length sf)%nat -> dist k <= dist j).
  { intros j Hj. specialize (Hall j Hj). rewrite (Hd j Hj), (Hd k Hk) in Hall.
    apply Qlt_bool_false_iff. exact Hall. }
  assert (Hfirst : forall j, (j < k)%nat -> dist k < dist j).
  { intros j Hj. specialize (Hbefore j Hj).
    rewrite (Hd j) in Hbefore by lia. rewrite (Hd k Hk) in Hbefore.
    apply Qlt_bool_iff. exact Hbefore. }
  assert (Hexact : (exists j, (j < length sf)%nat /\
                              clamped (nth j sf 0) == harmonic_target pf i) ->
                   clamped (nth k sf 0) == harmonic_target pf i).
  { intros [j [Hj He]]. apply harmonic_distance_exact in He.
    apply harmonic_distance_exact. apply Qle_antisym.
    - fold (dist k). rewrite <- He. apply Hmin. exact Hj.
    - apply Qabs_nonneg. }
  split; [exact Hk|]. split; [exact Hmin|]. split; [exact Hfirst|].
  split; [exact Hexact|]. split.
  - intros Hpos [j [Hj He]].
    rewrite <- (clamped_nonneg (nth k sf 0)) by (apply Hpos, nth_In, Hk).
    apply Hexact. exists j. split; [exact Hj|].
    rewrite clamped_nonneg by (apply Hpos, nth_In, Hj). exact He.
  - intros j Hj Htie.
    assert (Hkj : (k <= j)%nat).
    { destruct (le_lt_dec k j) as [Hle|Hlt]; [exact Hle|].
      specialize (Hfirst j Hlt). rewrite Htie in Hfirst.
      exfalso. exact (Qlt_irrefl _ Hfirst). }
    split; [exact Hkj|]. intros Hinc.
    destruct (Nat.eq_dec k j) as [->|Hne]; [apply Qle_refl|].
    apply Qlt_le_weak. apply Hinc; lia.
Qed.

Lemma harmonics_indices_first_nearest_witness :
  exists idx,
    _get_harmonics_indices [0; 25; 75; 100] 2 50 = Ok idx /\ length idx = 2%nat /\
    forall i, (1 <= i <= 2)%nat ->
      let k := nth (i - 1) idx 0%nat in
      let dist := fun j => harmonic_distance 50 i (nth j [0; 25; 75; 100] 0) in
      (k < 4)%nat /\
      (forall j, (j < 4)%nat -> dist k <= dist j) /\
      (forall j, (j < k)%nat -> dist k < dist j) /\
      ((exists j, (j < 4)%nat /\
                  clamped (nth j [0; 25; 75; 100] 0) == harmonic_target 50 i) ->
       clamped (nth k [0; 25; 75; 100] 0) == harmonic_target 50 i) /\
      ((forall x, In x [0; 25; 75; 100] -> 0 <= x) ->
       (exists j, (j < 4)%nat /\ nth j [0; 25; 75; 100] 0 == harmonic_target 50 i) ->
       nth k [0; 25; 75; 100] 0 == harmonic_target 50 i) /\
      (forall j, (j < 4)%nat -> dist j == dist k ->
         (k <= j)%nat /\
         (increasing [0; 25; 75; 100] -> nth k [0; 25; 75; 100] 0 <= nth j [0; 25; 75; 100] 0)).
Proof.
  apply (harmonics_indices_first_nearest [0; 25; 75; 100] 2 50).
  - lia.
  - discriminate.
Defined.

(** The tie of the witness: 25 Hz and 75 Hz are equally far from 50 Hz and
    the bin of 25 Hz is selected. *)
Example harmonics_indices_tie :
  _get_harmonics_indices [0; 25; 75; 100] 2 50 = Ok [1%nat; 3%nat].
Proof. reflexivity. Qed.

(** C8, as stated, fails on the empty frequency vector: there is no bin to
    select and [np.argmin] raises. *)
Lemma harmonics_indices_empty_vector :
  _get_harmonics_indices [] 1 50 = Raise ValueError_empty_sequence /\
  ~ (exists idx, _get_harmonics_indices [] 1 50 = Ok idx).
Proof.
  split; [reflexivity|]. intros [idx H]. vm_compute in H. discriminate.
Qed.

(* ================================================================== *)
(** * The most common peak frequency *)

Lemma occurrences_cons (x y : Q) (l : list Q) :
  occurrences x (y :: l)
  = ((if Qeq_bool x y then 1 else 0) + occurrences x l)%nat.
Proof.
  unfold occurrences. simpl. destruct (Qeq_bool x y); reflexivity.
Qed.

Lemma occurrences_compat (x y : Q) (l : list Q) :
  x == y -> occurrences x l = occurrences y l.
Proof.
  intros H. induction l as [|a l IH]; [reflexivity|].
  rewrite !occurrences_cons, IH. now rewrite H.
Qed.

Lemma occurrences_insert (x y : Q) (l : list Q) :
  occurrences x (insert_sorted y l) = occurrences x (y :: l).
Proof.
  induction l as [|a l IH]; [reflexivity|].
  simpl. destruct (Qle_bool y a); [reflexivity|].
  rewrite occurrences_cons, IH, !occurrences_cons. lia.
Qed.

Lemma occurrences_sort (x : Q) (l : list Q) :
  occurrences x (sort l) = occurrences x l.
Proof.
  induction l as [|a l IH]; [reflexivity|].
  unfold sort in *. simpl. now rewrite occurrences_insert, !occurrences_cons, IH.
Qed.

Lemma occurrences_none (x : Q) (l : list Q) :
  (forall y, In y l -> x < y) -> occurrences x l = 0%nat.
Proof.
  induction l as [|a l IH]; intros H; [reflexivity|].
  rewrite occurrences_cons, IH by (intros y Hy; apply H; right; exact Hy).
  destruct (Qeq_bool x a) eqn:E; [|reflexivity].
  apply Qeq_bool_iff in E. specialize (H a (or_introl eq_refl)). Lqa.lra.
Qed.

Lemma in_insert_sorted (z x : Q) (l : list Q) :
  In z (insert_sorted x l) <-> z = x \/ In z l.
Proof.
  induction l as [|a l IH]; simpl.
  - intuition.
  - destruct (Qle_bool x a); simpl; [intuition|]. rewrite IH. intuition.
Qed.

Lemma in_sort (z : Q) (l : list Q) : In z (sort l) <-> In z l.
Proof.
  induction l as [|a l IH]; [reflexivity|].
  unfold sort in *. simpl. rewrite in_insert_sorted, IH. intuition.
Qed.

Lemma insert_sorted_sorted (x : Q) (l : list Q) :
  StronglySorted Qle l -> StronglySorted Qle (insert_sorted x l).
Proof.
  induction l as [|a l IH]; intros Hs; simpl.
  - constructor; constructor.
  - inversion Hs as [|a' l' Hl Ha]; subst.
    destruct (Qle_bool x a) eqn:E.
    + apply Qle_bool_iff in E. constructor; [exact Hs|].
      constructor; [exact E|]. rewrite Forall_forall in *.
      intros y Hy. apply Qle_trans with a; [exact E|apply Ha; exact Hy].
    + constructor; [apply IH; exact Hl|].
      rewrite Forall_forall in *. intros y Hy.
      apply in_insert_sorted in Hy. destruct Hy as [->|Hy]; [|apply Ha; exact Hy].
      destruct (Qlt_le_dec a x) as [Hlt|Hle]; [apply Qlt_le_weak; exact Hlt|].
      apply Qle_bool_iff in Hle. congruence.
Qed.

Lemma sort_sorted (l : list Q) : StronglySorted Qle (sort l).
Proof.
  induction l as [|a l IH]; [constructor|].
  unfold sort in *. simpl. apply insert_sorted_sorted. exact IH.
Qed.

(** The runs of a sorted sequence: strictly increasing values, each with its
    number of occurrences, and every entry is in some run. *)
Lemma run_lengths_sorted (l : list Q) :
  StronglySorted Qle l ->
  StronglySorted Qlt (map fst (run_lengths l)) /\
  (forall y c, In (y, c) (run_lengths l) -> In y l /\ c = occurrences y l) /\
  (forall x, In x l -> exists y c, In (y, c) (run_lengths l) /\ y == x) /\
  (forall x t, l = x :: t -> exists c r, run_lengths l = (x, c) :: r).
Proof.
  induction l as [|x t IH]; intros Hs.
  - simpl. split; [constructor|]. split; [intros y c []|]. split; [intros x []|].
    intros x t H. discriminate.
  - inversion Hs as [|x' t' Ht Hx]; subst.
    destruct (IH Ht) as [Hinc [Hcnt [Hcov Hhead]]]. clear IH.
    rewrite Forall_forall in Hx. simpl.
    destruct (run_lengths t) as [|[y c] r] eqn:Er.
    + (* the tail is empty *)
      assert (Et : t = []).
      { destruct t as [|a t']; [reflexivity|].
        destruct (Hhead a t' eq_refl) as [c [r H]]. discriminate. }
      subst t. simpl.
      split; [constructor; constructor|]. split.
      * intros y c [H|[]]. injection H as <- <-. split; [left; reflexivity|].
        rewrite occurrences_cons, Qeq_bool_refl. reflexivity.
      * split.
        -- intros z [<-|[]]. exists x, 1%nat. split; [left; reflexivity|reflexivity].
        -- intros z t H. injection H as <- <-. eauto.
    + simpl in Hinc. inversion Hinc as [|y' vs Hvs Hyvs]; subst y' vs.
      rewrite Forall_forall in Hyvs.
      assert (Hy : In y t /\ c = occurrences y t) by (apply Hcnt; left; reflexivity).
      destruct Hy as [Hyt Hc].
      assert (Hxy : x <= y) by (apply Hx; exact Hyt).
      assert (Hyhead : forall z, In z t -> y <= z).
      { destruct t as [|a t']; [intros z []|].
        destruct (Hhead a t' eq_refl) as [c' [r' H]]. injection H as <- _ _.
        inversion Ht as [|a' t'' _ Ha]; subst. rewrite Forall_forall in Ha.
        intros z [<-|Hz]; [apply Qle_refl|apply Ha; exact Hz]. }
      destruct (Qeq_bool x y) eqn:E.
      * (* [x] extends the first run *)
        apply Qeq_bool_iff in E. simpl. split.
        { constructor; [exact Hvs|]. rewrite Forall_forall.
          intros z Hz. specialize (Hyvs z Hz). Lqa.lra. }
        split.
        { intros z k [H|H].
          - injection H as <- <-. split; [left; reflexivity|].
            rewrite occurrences_cons, Qeq_bool_refl.
            rewrite (occurrences_compat x y t E). simpl. congruence.
          - destruct (Hcnt z k (or_intror H)) as [Hz Hk].
            split; [right; exact Hz|]. rewrite occurrences_cons.
            assert (Hlt : y < z).
            { apply Hyvs. apply in_map_iff. exists (z, k). split; [reflexivity|exact H]. }
            destruct (Qeq_bool z x) eqn:E'; [|exact Hk].
            apply Qeq_bool_iff in E'. Lqa.lra. }
        split.
        { intros z [<-|Hz].
          - exists x, (S c). split; [left; reflexivity|reflexivity].
          - destruct (Hcov z Hz) as [u [k [[H|H] Hu]]].
            + injection H as <- <-. exists x, (S c).
              split; [left; reflexivity|]. Lqa.lra.
            + exists u, k. split; [right; exact H|exact Hu]. }
        { intros z t0 H. injection H as <- <-. eauto. }
      * (* [x] starts a new run *)
        apply Qeq_bool_neq in E.
        assert (Hlt : x < y).
        { apply Qle_lteq in Hxy. destruct Hxy as [H|H]; [exact H|contradiction]. }
        simpl. split.
        { constructor; [exact Hinc|]. constructor; [exact Hlt|].
          rewrite Forall_forall. intros z Hz. specialize (Hyvs z Hz). Lqa.lra. }
        split.
        { intros z k [H|H].
          - injection H as <- <-. split; [left; reflexivity|].
            rewrite occurrences_cons, Qeq_bool_refl.
            rewrite occurrences_none; [reflexivity|].
            intros u Hu. specialize (Hyhead u Hu). Lqa.lra.
          - destruct (Hcnt z k H) as [Hz Hk].
            split; [right; exact Hz|]. rewrite occurrences_cons.
            destruct (Qeq_bool z x) eqn:E'; [|exact Hk].
            apply Qeq_bool_iff in E'. specialize (Hyhead z Hz). Lqa.lra. }
        split.
        { intros z [<-|Hz].
          - exists x, 1%nat. split; [left; reflexivity|reflexivity].
          - destruct (Hcov z Hz) as [u [k [H Hu]]].
            exists u, k. split; [right; exact H|exact Hu]. }
        { intros z t0 H. injection H as <- <-. eauto. }
Qed.

Lemma increasing_nth_le (l : list Q) (i j : nat) :
  StronglySorted Qlt l -> (i <= j)%nat -> (j < length l)%nat ->
  nth i l 0 <= nth j l 0.
Proof.
  intros Hs. revert i j. induction Hs as [|a l Hl IH Ha]; intros i j Hij Hj.
  - simpl in Hj. lia.
  - simpl in Hj. destruct i as [|i], j as [|j]; simpl; try lia.
    + apply Qle_refl.
    + rewrite Forall_forall in Ha. apply Qlt_le_weak, Ha, nth_In. lia.
    + apply IH; lia.
Qed.

Lemma nat_better_asym (x y : nat) : (y <? x)%nat = true -> (x <? y)%nat = false.
Proof. rewrite Nat.ltb_lt, Nat.ltb_ge. lia. Qed.

Lemma nat_better_trans (x b y : nat) :
  (b <? x)%nat = true -> (b <? y)%nat = false -> (y <? x)%nat = true.
Proof. rewrite !Nat.ltb_lt, Nat.ltb_ge. lia. Qed.

(** The vote on a non-empty sequence of peak frequencies. *)
Lemma most_common_smallest (peaks : list Q) :
  peaks <> [] ->
  exists i v,
    argmax_nat (snd (unique_counts peaks)) = Ok i /\
    nth i (fst (unique_counts peaks)) 0 = v /\
    In v peaks /\
    (forall w, In w peaks -> (occurrences w peaks <= occurrences v peaks)%nat) /\
    (forall w, In w peaks -> occurrences w peaks = occurrences v peaks -> v <= w).
Proof.
  intros Hne. unfold unique_counts. simpl.
  set (rl := run_lengths (sort peaks)).
  destruct (run_lengths_sorted (sort peaks) (sort_sorted peaks))
    as [Hinc [Hcnt [Hcov _]]]. fold rl in Hinc, Hcnt, Hcov.
  assert (Hrl : map snd rl <> []).
  { destruct peaks as [|a p]; [congruence|].
    destruct (Hcov a) as [y [c [Hin _]]]; [apply in_sort; left; reflexivity|].
    destruct rl; [destruct Hin|discriminate]. }
  destruct (arg_best_first_best (fun x best => (best <? x)%nat) 0%nat
              (fun x y H => nat_better_asym x y H)
              (fun x b y H1 H2 => nat_better_trans x b y H1 H2)
              (map snd rl) Hrl) as [i [Hi [Hk [Hall Hbefore]]]].
  rewrite length_map in Hk, Hall.
  assert (Hpair : forall j, (j < length rl)%nat ->
            In (nth j (map fst rl) 0, nth j (map snd rl) 0%nat) rl).
  { intros j Hj.
    rewrite (nth_map_inside fst rl j 0 (0, 0%nat)) by exact Hj.
    rewrite (nth_map_inside snd rl j 0%nat (0, 0%nat)) by exact Hj.
    rewrite <- surjective_pairing. apply nth_In. exact Hj. }
  assert (Hocc : forall j, (j < length rl)%nat ->
            In (nth j (map fst rl) 0) peaks /\
            nth j (map snd rl) 0%nat = occurrences (nth j (map fst rl) 0) peaks).
  { intros j Hj. destruct (Hcnt _ _ (Hpair j Hj)) as [Hin Hc].
    split; [apply in_sort; exact Hin|]. rewrite Hc. apply occurrences_sort. }
  assert (Hfind : forall w, In w peaks ->
            exists j, (j < length rl)%nat /\ nth j (map fst rl) 0 == w).
  { intros w Hw. destruct (Hcov w) as [y [c [Hin Hy]]]; [apply in_sort; exact Hw|].
    destruct (In_nth rl (y, c) (0, 0%nat) Hin) as [j [Hj Hnth]].
    exists j. split; [exact Hj|].
    rewrite (nth_map_inside fst rl j 0 (0, 0%nat)) by exact Hj.
    rewrite Hnth. exact Hy. }
  exists i, (nth i (map fst rl) 0). split; [exact Hi|]. split; [reflexivity|].
  destruct (Hocc i Hk) as [Hvin Hvc].
  split; [exact Hvin|]. split.
  - intros w Hw. destruct (Hfind w Hw) as [j [Hj Hjw]].
    rewrite <- (occurrences_compat _ _ peaks Hjw).
    rewrite <- Hvc, <- (proj2 (Hocc j Hj)).
    specialize (Hall j Hj). apply Nat.ltb_ge in Hall. exact Hall.
  - intros w Hw Heq. destruct (Hfind w Hw) as [j [Hj Hjw]].
    rewrite <- (occurrences_compat _ _ peaks Hjw) in Heq.
    rewrite <- Hvc, <- (proj2 (Hocc j Hj)) in Heq.
    assert (Hij : (i <= j)%nat).
    { destruct (le_lt_dec i j) as [Hle|Hlt]; [exact Hle|].
      specialize (Hbefore j Hlt). apply Nat.ltb_lt in Hbefore. lia. }
    rewrite <- Hjw. apply increasing_nth_le; [exact Hinc|exact Hij|].
    now rewrite length_map.
Qed.

Lemma mapM_exists {A B : Type} (f : A -> result B) (P : A -> B -> Prop) (l : list A) :
  (forall a, In a l -> exists b, f a = Ok b /\ P a b) ->
  exists bs, mapM f l = Ok bs /\ Forall2 P l bs.
Proof.
  induction l as [|a l IH]; intros H.
  - exists []. split; [reflexivity|constructor].
  - destruct (H a (or_introl eq_refl)) as [b [Hb Pb]].
    destruct IH as [bs [Hbs HP]]; [intros x Hx; apply H; right; exact Hx|].
    exists (b :: bs). simpl. rewrite Hb. simpl. rewrite Hbs. simpl.
    split; [reflexivity|constructor; assumption].
Qed.

Lemma Forall2_in_right {A B : Type} (P : A -> B -> Prop) (l : list A) (bs : list B) (b : B) :
  Forall2 P l bs -> In b bs -> exists a, In a l /\ P a b.
Proof.
  induction 1 as [|a b' l bs Hab HP IH]; intros Hb; [destruct Hb|].
  destruct Hb as [<-|Hb].
  - exists a. split; [left; reflexivity|exact Hab].
  - destruct (IH Hb) as [a' [Ha' Pa']]. exists a'. split; [right; exact Ha'|exact Pa'].
Qed.

Lemma argmax_better_asym(x y : Q) : Qlt_bool y x = true -> Qlt_bool x y = false.
Proof. apply Qlt_bool_asym. Qed.

Lemma argmax_better_trans (x b y : Q) :
  Qlt_bool b x = true -> Qlt_bool b y = false -> Qlt_bool y x = true.
Proof.
  rewrite !Qlt_bool_iff, Qlt_bool_false_iff. intros H1 H2.
  apply Qle_lt_trans with b; assumption.
Qed.

(** On a spectrum with at least one column, whose bins all have a
    frequency, the per-row peak frequencies exist: one per row, the frequency
    of the first bin of maximal amplitude. *)
Lemma peak_frequencies_defined (s : ndarray) (freqs : list Q) :
  wf_ndarray s -> (1 <= shape1 s <= length freqs)%nat ->
  exists peaks,
    peak_frequencies s freqs = Ok peaks /\
    Forall2 (fun row p =>
               exists k, first_best (fun x best => Qlt_bool best x) 0 row k /\
                         p = nth k freqs 0)
            (rows s) peaks.
Proof.
  intros Hwf Hc. unfold wf_ndarray in Hwf. rewrite Forall_forall in Hwf.
  destruct (mapM_exists argmax
              (fun row k => first_best (fun x best => Qlt_bool best x) 0 row k)
              (rows s)) as [idx [Hidx HP]].
  { intros row Hrow.
    apply (arg_best_first_best (fun x best => Qlt_bool best x) 0
             argmax_better_asym argmax_better_trans).
    intros E. specialize (Hwf row Hrow). rewrite E in Hwf. simpl in Hwf. lia. }
  unfold peak_frequencies, argmax_axis1.
  replace (shape1 s =? 0)%nat with false by (symmetry; apply Nat.eqb_neq; lia).
  rewrite Hidx. simpl. unfold take.
  assert (Hin : forallb (fun i => (i <? length freqs)%nat) idx = true).
  { apply forallb_forall. intros k Hk.
    destruct (Forall2_in_right _ _ _ k HP Hk) as [row [Hrow [Hlt _]]].
    rewrite (Hwf row Hrow) in Hlt. apply Nat.ltb_lt. lia. }
  rewrite Hin. eexists. split; [reflexivity|].
  clear Hidx Hin. induction HP as [|row k rs ks Hk HP IH]; simpl.
  - constructor.
  - constructor; [exists k; split; [exact Hk|reflexivity]|].
    apply IH. intros r Hr. apply Hwf. right. exact Hr.
Qed.

(** C10. Let [peaks] be the per-row peak-amplitude frequencies of a
    spectrum with at least one row.  [_peak_amplitude_frequency] returns a
    frequency [v] among them such that no peak frequency occurs more often
    than [v], and [v] is at most every peak frequency that occurs as often:
    among the frequencies tied for most common it is the smallest. *)
Theorem peak_amplitude_frequency_smallest_tie (s : ndarray) (freqs peaks : list Q) :
  peak_frequencies s freqs = Ok peaks -> peaks <> [] ->
  exists v,
    _peak_amplitude_frequency s freqs = Ok v /\
    In v peaks /\
    (forall w, In w peaks -> (occurrences w peaks <= occurrences v peaks)%nat) /\
    (forall w, In w peaks -> occurrences w peaks = occurrences v peaks -> v <= w).
Proof.
  intros Hp Hne.
  destruct (most_common_smallest peaks Hne) as [i [v [Hi [Hv [Hin [Hmost Hsmall]]]]]].
  exists v.
  split; [|split; [exact Hin|split; [exact Hmost|exact Hsmall]]].
  unfold _peak_amplitude_frequency. rewrite Hp. cbv beta iota delta [bind].
  destruct (unique_counts peaks) as [values counts]. simpl in Hi, Hv.
  rewrite Hi. now rewrite Hv.
Qed.

(** In the witness 0 Hz and 3200 Hz both win two rows, and 0 Hz is
    returned. *)
Lemma peak_amplitude_frequency_smallest_tie_witness :
  exists v,
    _peak_amplitude_frequency spectrum_votes [0; 1600; 3200] = Ok v /\
    In v peaks_votes /\
    (forall w, In w peaks_votes ->
       (occurrences w peaks_votes
        <= occurrences v peaks_votes)%nat) /\
    (forall w, In w peaks_votes ->
       occurrences w peaks_votes
       = occurrences v peaks_votes -> v <= w).
Proof.
  apply (peak_amplitude_frequency_smallest_tie
           spectrum_votes [0; 1600; 3200] peaks_votes).
  - reflexivity.
  - discriminate.
Defined.

Example peak_amplitude_frequency_tie :
  peak_frequencies spectrum_votes [0; 1600; 3200] = Ok peaks_votes /\
  _peak_amplitude_frequency spectrum_votes [0; 1600; 3200] = Ok 0.
Proof. split; reflexivity. Qed.

(** The peak frequencies exist, one per row, on every spectrum with at
    least one column whose bins all have a frequency; the vote then returns
    a result as soon as there is a row. *)
Lemma peak_amplitude_frequency_defined (s : ndarray) (freqs : list Q) :
  wf_ndarray s -> (1 <= shape0 s)%nat -> (1 <= shape1 s <= length freqs)%nat ->
  exists peaks v,
    peak_frequencies s freqs = Ok peaks /\ length peaks = shape0 s /\
    _peak_amplitude_frequency s freqs = Ok v.
Proof.
  intros Hwf Hr Hc.
  destruct (peak_frequencies_defined s freqs Hwf Hc) as [peaks [Hp HP]].
  assert (Hlen : length peaks = shape0 s).
  { symmetry. exact (Forall2_length HP). }
  assert (Hne : peaks <> []).
  { intros E. rewrite E in Hlen. simpl in Hlen. lia. }
  destruct (most_common_smallest peaks Hne) as [i [v [Hi [Hv _]]]].
  exists peaks, v. split; [exact Hp|]. split; [exact Hlen|].
  unfold _peak_amplitude_frequency. rewrite Hp. cbv beta iota delta [bind].
  destruct (unique_counts peaks) as [values counts]. simpl in Hi, Hv.
  rewrite Hi. now rewrite Hv.
Qed.

(* ================================================================== *)
(** * Spectral flatness *)

Section Flatness.
Local Open Scope R_scope.

Lemma ln_below_line (y : R) : 0 < y -> ln y <= y - 1.
Proof.
  intros Hy. pose proof (exp_ineq1_le (y - 1)) as H.
  replace (1 + (y - 1)) with y in H by ring.
  destruct H as [H|H].
  - left. rewrite <- (ln_exp (y - 1)). now apply ln_increasing.
  - right. rewrite H at 1. apply ln_exp.
Qed.

Lemma exp_monotone (x y : R) : x <= y -> exp x <= exp y.
Proof.
  intros [H | ->]; [left; now apply exp_increasing|right; reflexivity].
Qed.

Lemma Rprod_pos (l : list R) : Forall (fun x => 0 < x) l -> 0 < Rprod l.
Proof.
  induction 1 as [|x l Hx Hl IH]; simpl; [Lra.lra|].
  now apply Rmult_lt_0_compat.
Qed.

Lemma Rsum_pos (l : list R) : l <> [] -> Forall (fun x => 0 < x) l -> 0 < Rsum l.
Proof.
  intros Hne H. induction H as [|x l Hx Hl IH]; [congruence|].
  simpl. destruct l as [|y l'].
  - simpl. Lra.lra.
  - assert (0 < Rsum (y :: l')) by (apply IH; discriminate). Lra.lra.
Qed.

Lemma ln_Rprod (l : list R) :
  Forall (fun x => 0 < x) l -> ln (Rprod l) = Rsum (map ln l).
Proof.
  induction 1 as [|x l Hx Hl IH]; simpl; [apply ln_1|].
  rewrite ln_mult by (try assumption; now apply Rprod_pos).
  now rewrite IH.
Qed.

(** Each logarithm is below the tangent of [ln] at the point [a]. *)
Lemma sum_ln_below (a : R) (l : list R) :
  0 < a -> Forall (fun x => 0 < x) l ->
  Rsum (map ln l) <= INR (length l) * (ln a - 1) + Rsum l / a.
Proof.
  intros Ha. induction 1 as [|x l Hx Hl IH].
  - simpl. Lra.lra.
  - change (Rsum (map ln (x :: l))) with (ln x + Rsum (map ln l)).
    change (Rsum (x :: l)) with (x + Rsum l).
    change (length (x :: l)) with (S (length l)). rewrite S_INR.
    assert (Hq : 0 < x / a) by (apply Rdiv_lt_0_compat; assumption).
    pose proof (ln_below_line (x / a) Hq) as Hline.
    unfold Rdiv in Hline at 1.
    rewrite ln_mult in Hline by (try assumption; now apply Rinv_0_lt_compat).
    rewrite ln_Rinv in Hline by assumption.
    unfold Rdiv in *. Lra.lra.
Qed.

(** The inequality of the arithmetic and geometric means. *)
Lemma geometric_le_arithmetic (l : list R) :
  l <> [] -> Forall (fun x => 0 < x) l ->
  Rpower (Rprod l) (/ INR (length l)) <= Rmean l.
Proof.
  intros Hne Hpos.
  assert (Hn : 0 < INR (length l)).
  { apply lt_0_INR. destruct l; [congruence|simpl; lia]. }
  assert (Hs : 0 < Rsum l) by now apply Rsum_pos.
  assert (Ha : 0 < Rmean l) by (unfold Rmean; now apply Rdiv_lt_0_compat).
  unfold Rpower. rewrite <- (exp_ln (Rmean l) Ha) at 1.
  apply exp_monotone. rewrite ln_Rprod by exact Hpos.
  pose proof (sum_ln_below (Rmean l) l Ha Hpos) as H.
  assert (E : Rsum l / Rmean l = INR (length l)).
  { unfold Rmean. field. split; Lra.lra. }
  rewrite E in H.
  apply Rmult_le_reg_l with (INR (length l)); [exact Hn|].
  rewrite <- Rmult_assoc, Rinv_r, Rmult_1_l by Lra.lra.
  Lra.lra.
Qed.

(** [spectral_flatness] row by row. *)
Lemma spectral_flatness_rows (s : list (list R)) :
  spectral_flatness s
  = map (fun row =>
           let row' := map (fun x => if Req_dec_T x 0 then 1 / 100000 else x) row in
           [Rpower (Rprod row') (/ INR (length row')) / Rmean row'])
        s.
Proof.
  unfold spectral_flatness, geo_mean. rewrite combine_map_map, !map_map. reflexivity.
Qed.

(** C9. For every row of the spectrum that is non-negative and not all
    zero, [spectral_flatness] returns one value [v] for that row, with
    [0 < v <= 1]: it is the geometric mean divided by the arithmetic mean of
    the row in which the zero amplitudes have been replaced by 1/100000. *)
Theorem spectral_flatness_in_unit_interval
        (s : list (list R)) (i : nat) (row : list R) :
  nth_error s i = Some row ->
  Forall (fun x => 0 <= x) row ->
  Exists (fun x => x <> 0) row ->
  exists v,
    nth_error (spectral_flatness s) i = Some [v] /\
    (let row' := map (fun x => if Req_dec_T x 0 then 1 / 100000 else x) row in
     v = Rpower (Rprod row') (/ INR (length row')) / Rmean row') /\
    0 < v <= 1.
Proof.
  intros Hrow Hnn Hnz. rewrite spectral_flatness_rows.
  set (row' := map (fun x => if Req_dec_T x 0 then 1 / 100000 else x) row).
  exists (Rpower (Rprod row') (/ INR (length row')) / Rmean row').
  split.
  { exact (map_nth_error
             (fun row =>
                let row' := map (fun x => if Req_dec_T x 0 then 1 / 100000 else x) row in
                [Rpower (Rprod row') (/ INR (length row')) / Rmean row'])
             i s Hrow). }
  split; [reflexivity|].
  assert (Hne : row' <> []).
  { unfold row'. destruct Hnz; discriminate. }
  assert (Hpos : Forall (fun x => 0 < x) row').
  { unfold row'. rewrite Forall_forall in *. intros y Hy.
    apply in_map_iff in Hy. destruct Hy as [x [<- Hx]].
    specialize (Hnn x Hx). destruct (Req_dec_T x 0); Lra.lra. }
  assert (Hs : 0 < Rsum row') by now apply Rsum_pos.
  assert (Hn : 0 < INR (length row')).
  { apply lt_0_INR. destruct row'; [congruence|simpl; lia]. }
  assert (Ha : 0 < Rmean row') by (unfold Rmean; now apply Rdiv_lt_0_compat).
  pose proof (geometric_le_arithmetic row' Hne Hpos) as Hgm.
  assert (Hg : 0 < Rpower (Rprod row') (/ INR (length row')))
    by (unfold Rpower; apply exp_pos).
  split.
  - now apply Rdiv_lt_0_compat.
  - apply Rmult_le_reg_r with (Rmean row'); [exact Ha|].
    unfold Rdiv. rewrite Rmult_assoc, Rinv_l, Rmult_1_r, Rmult_1_l by Lra.lra.
    exact Hgm.
Qed.

Lemma spectral_flatness_in_unit_interval_witness :
  exists v,
    nth_error (spectral_flatness [[0; 2; 8]]) 0 = Some [v] /\
    (let row' := map (fun x => if Req_dec_T x 0 then 1 / 100000 else x) [0; 2; 8] in
     v = Rpower (Rprod row') (/ INR (length row')) / Rmean row') /\
    0 < v <= 1.
Proof.
  apply (spectral_flatness_in_unit_interval [[0; 2; 8]] 0 [0; 2; 8]).
  - reflexivity.
  - repeat constructor; Lra.lra.
  - apply Exists_cons_tl, Exists_cons_hd. Lra.lra.
Defined.
End Flatness.

(* ================================================================== *)
(** * The default window *)

(** X1. On an array with at least one column the default window is a
    power of two, at most the number of columns and more than half of it; on
    an array without columns it is 0. *)
Theorem default_window_power_of_two (current : ndarray) :
  ((1 <= shape1 current)%nat ->
   (exists k, (0 <= k)%Z /\ _get_default_window current = (2 ^ k)%Z) /\
   (_get_default_window current <= Z.of_nat (shape1 current)
    < 2 * _get_default_window current)%Z) /\
  (shape1 current = 0%nat -> _get_default_window current = 0%Z).
Proof.
  unfold _get_default_window. split.
  - intros Hc.
    replace (shape1 current =? 0)%nat with false by (symmetry; apply Nat.eqb_neq; lia).
    assert (Hpos : (0 < Z.of_nat (shape1 current))%Z) by lia.
    pose proof (Z.log2_spec _ Hpos) as Hspec.
    pose proof (Z.log2_nonneg (Z.of_nat (shape1 current))) as Hnn.
    split.
    + exists (Z.log2 (Z.of_nat (shape1 current))). split; [exact Hnn|reflexivity].
    + rewrite Z.pow_succ_r in Hspec by exact Hnn. lia.
  - intros ->. reflexivity.
Qed.

Lemma default_window_power_of_two_witness :
  (exists k, (0 <= k)%Z /\ _get_default_window (mk_ndarray 100 []) = (2 ^ k)%Z) /\
  (_get_default_window (mk_ndarray 100 []) <= 100
   < 2 * _get_default_window (mk_ndarray 100 []))%Z.
Proof.
  apply (proj1 (default_window_power_of_two (mk_ndarray 100 []))).
  simpl. lia.
Defined.

(** The example of the docstring: 12800 measurements give the window
    8192. *)
Example default_window_two_seconds :
  _get_default_window (mk_ndarray (Z.to_nat 12800) []) = 8192%Z.
Proof. vm_compute. reflexivity. Qed.

(* ================================================================== *)
(** * The frequency map *)

Lemma inject_Z_nonzero (w : Z) : (w <> 0)%Z -> ~ inject_Z w == 0.
Proof.
  intros Hw H. apply Hw. apply inject_Z_injective. exact H.
Qed.

Lemma inject_Z_positive (w : Z) : (0 < w)%Z -> 0 < inject_Z w.
Proof.
  intros Hw. change 0 with (inject_Z 0). rewrite <- Zlt_Qlt. exact Hw.
Qed.

(** The bins of a non-zero window, before any selection. *)
Lemma spectral_frequencies_nth (window : Z) (n : nat) (pf sr : Q) :
  (window <> 0)%Z ->
  exists freqs,
    spectral_frequencies window n false pf sr = Ok freqs /\
    length freqs = Z.to_nat (window / 2 + 1) /\
    forall k, (k < length freqs)%nat ->
      nth k freqs 0 = inject_Z (Z.of_nat k) * (1 / inject_Z window) * sr.
Proof.
  intros Hw. rewrite spectral_frequencies_full. unfold rfftfreq.
  replace (window =? 0)%Z with false by (symmetry; apply Z.eqb_neq; exact Hw).
  cbv beta iota delta [bind]. eexists. split; [reflexivity|].
  rewrite !length_map, length_seq. split; [reflexivity|].
  intros k Hk. rewrite map_map.
  rewrite (nth_map_inside
             (fun k => inject_Z (Z.of_nat k) * (1 / inject_Z window) * sr)
             (seq 0 (Z.to_nat (window / 2 + 1))) k 0 0%nat)
    by now rewrite length_seq.
  now rewrite seq_nth.
Qed.

(** The bins of a positive window. *)
Lemma bins_of_window (window : Z) (n : nat) (pf sr : Q) :
  (0 < window)%Z ->
  exists freqs,
    spectral_frequencies window n false pf sr = Ok freqs /\
    length freqs = Z.to_nat (window / 2 + 1) /\
    (1 <= length freqs)%nat /\
    (forall k, (k < length freqs)%nat ->
       nth k freqs 0 == inject_Z (Z.of_nat k) * sr / inject_Z window) /\
    nth 0 freqs 0 == 0 /\
    (0 < sr -> increasing freqs) /\
    (0 <= sr -> forall x, In x freqs -> 0 <= x).
Proof.
  intros Hw.
  destruct (spectral_frequencies_nth window n pf sr) as [freqs [Hf [Hl Hnth]]]; [lia|].
  pose proof (inject_Z_nonzero window ltac:(lia)) as Hnz.
  pose proof (inject_Z_positive window Hw) as Hpos.
  assert (Hlen : (1 <= length freqs)%nat).
  { rewrite Hl. pose proof (Z.div_pos window 2). lia. }
  assert (Hk : forall k, (k < length freqs)%nat ->
                 nth k freqs 0 == inject_Z (Z.of_nat k) * sr / inject_Z window).
  { intros k Hlt. rewrite (Hnth k Hlt). field. exact Hnz. }
  exists freqs. split; [exact Hf|]. split; [exact Hl|]. split; [exact Hlen|].
  split; [exact Hk|]. split; [|split].
  - rewrite Hk by lia. simpl. field. exact Hnz.
  - intros Hsr a b Hab Hb. rewrite !Hk by lia.
    assert (Hq : 0 < sr / inject_Z window).
    { apply Qlt_shift_div_l; [exact Hpos|]. rewrite Qmult_0_l. exact Hsr. }
    unfold Qdiv. rewrite <- !Qmult_assoc.
    apply Qmult_lt_r; [exact Hq|]. rewrite <- Zlt_Qlt. lia.
  - intros Hsr x Hx. destruct (In_nth freqs x 0 Hx) as [k [Hlt <-]].
    rewrite Hk by exact Hlt.
    apply Qle_shift_div_l; [exact Hpos|]. rewrite Qmult_0_l.
    apply Qmult_le_0_compat; [|exact Hsr].
    change 0 with (inject_Z 0). rewrite <- Zle_Qle. lia.
Qed.

(** X2. For a positive window the frequency map has [window // 2 + 1]
    bins, bin [k] is [k * sampling_rate / window] Hz, bin 0 is 0 Hz, and with
    a positive sampling rate the frequencies increase strictly along the
    bins. *)
Theorem spectral_frequencies_bins (window : Z) (n : nat) (pf sr : Q) :
  (0 < window)%Z ->
  exists freqs,
    spectral_frequencies window n false pf sr = Ok freqs /\
    length freqs = Z.to_nat (window / 2 + 1) /\
    (1 <= length freqs)%nat /\
    (forall k, (k < length freqs)%nat ->
       nth k freqs 0 == inject_Z (Z.of_nat k) * sr / inject_Z window) /\
    nth 0 freqs 0 == 0 /\
    (0 < sr -> increasing freqs) /\
    (0 <= sr -> forall x, In x freqs -> 0 <= x).
Proof. exact (bins_of_window window n pf sr). Qed.

Lemma spectral_frequencies_bins_witness :
  exists freqs,
    spectral_frequencies 8 20 false 50 6400 = Ok freqs /\
    length freqs = Z.to_nat (8 / 2 + 1) /\
    (1 <= length freqs)%nat /\
    (forall k, (k < length freqs)%nat ->
       nth k freqs 0 == inject_Z (Z.of_nat k) * 6400 / inject_Z 8) /\
    nth 0 freqs 0 == 0 /\
    (0 < 6400 -> increasing freqs) /\
    (0 <= 6400 -> forall x, In x freqs -> 0 <= x).
Proof.
  apply (spectral_frequencies_bins 8 20 50 6400). lia.
Defined.

(** X3. A window that is not positive: the window 0 raises a division by
    zero in both modes; a negative window has no bin, so the full map is
    empty and the selection of [n >= 1] harmonics raises on the empty
    sequence. *)
Theorem spectral_frequencies_degenerate_window (window : Z) (n : nat) (pf sr : Q) :
  (window = 0%Z ->
   forall limit, spectral_frequencies window n limit pf sr = Raise ZeroDivisionError) /\
  ((window < 0)%Z ->
   spectral_frequencies window n false pf sr = Ok [] /\
   ((1 <= n)%nat ->
    spectral_frequencies window n true pf sr = Raise ValueError_empty_sequence)).
Proof.
  split.
  - intros -> limit. reflexivity.
  - intros Hw. unfold spectral_frequencies, rfftfreq.
    replace (window =? 0)%Z with false by (symmetry; apply Z.eqb_neq; lia).
    assert (HN : Z.to_nat (window / 2 + 1) = 0%nat).
    { assert (window / 2 < 0)%Z by (apply Z.div_lt_upper_bound; lia). lia. }
    rewrite HN. cbv beta iota delta [bind]. simpl seq. simpl map.
    split; [reflexivity|]. intros Hn.
    unfold _get_harmonics_indices, dstack_copies.
    destruct n as [|m]; [lia|]. reflexivity.
Qed.

Lemma spectral_frequencies_degenerate_window_witness :
  spectral_frequencies (-2) 20 false 50 6400 = Ok [] /\
  ((1 <= 20)%nat ->
   spectral_frequencies (-2) 20 true 50 6400 = Raise ValueError_empty_sequence).
Proof.
  apply (proj2 (spectral_frequencies_degenerate_window (-2) 20 50 6400)). lia.
Defined.

(* ================================================================== *)
(** * The harmonic frequencies *)

(** Each selected index is the first best one for its harmonic. *)
Lemma harmonic_indices_first_best (sf : list Q) (n : nat) (pf : Q) :
  (1 <= n)%nat -> sf <> [] ->
  exists idx,
    _get_harmonics_indices sf n pf = Ok idx /\ length idx = n /\
    forall i, (i < n)%nat ->
      first_best Qlt_bool 0 (map (harmonic_distance pf (S i)) sf) (nth i idx 0%nat).
Proof.
  intros Hn Hsf. rewrite (get_harmonics_indices_argmin sf n pf Hn).
  destruct (mapM_seq_exists
              (fun i => argmin (map (harmonic_distance pf (S i)) sf))
              (fun i k => first_best Qlt_bool 0 (map (harmonic_distance pf (S i)) sf) k)
              0%nat n 0%nat) as [idx [Hidx [Hlen Hnth]]].
  { intros i _. apply (arg_best_first_best Qlt_bool 0 Qlt_bool_asym Qlt_bool_trans).
    destruct sf; [congruence|discriminate]. }
  exists idx. split; [exact Hidx|]. split; [exact Hlen|].
  intros i Hi. exact (Hnth i Hi).
Qed.

Lemma clamped_monotone (x y : Q) : x <= y -> clamped x <= clamped y.
Proof.
  intros H. unfold clamped.
  destruct (Qlt_bool x 0) eqn:Ex, (Qlt_bool y 0) eqn:Ey;
    try apply Qlt_bool_iff in Ex; try apply Qlt_bool_iff in Ey;
    try apply Qlt_bool_false_iff in Ex; try apply Qlt_bool_false_iff in Ey;
    Lqa.lra.
Qed.

Lemma harmonic_target_monotone (pf : Q) (i j : nat) :
  0 <= pf -> (i <= j)%nat -> harmonic_target pf i <= harmonic_target pf j.
Proof.
  intros Hpf Hij. unfold harmonic_target.
  apply Qmult_le_compat_r; [|exact Hpf]. rewrite <- Zle_Qle. lia.
Qed.

(** Two bins and two targets in the same order cannot be matched
    crosswise. *)
Lemma nearest_not_crossed (c c' t t' : Q) :
  c <= c' -> t <= t' ->
  Qabs (c' - t) < Qabs (c - t) -> Qabs (c - t') <= Qabs (c' - t') -> False.
Proof.
  intros Hc Ht.
  apply (Qabs_case (c' - t)); intros H1;
    apply (Qabs_case (c - t)); intros H2;
      apply (Qabs_case (c - t')); intros H3;
        apply (Qabs_case (c' - t')); intros H4; intros; Lqa.lra.
Qed.

(** X4. In an increasing frequency vector and for a non-negative power
    frequency the selected bins follow the harmonic order: the index selected
    for a higher harmonic is never below the index selected for a lower
    one. *)
Theorem harmonics_indices_monotone (sf : list Q) (n : nat) (pf : Q) :
  (1 <= n)%nat -> sf <> [] -> increasing sf -> 0 <= pf ->
  exists idx,
    _get_harmonics_indices sf n pf = Ok idx /\ length idx = n /\
    forall i j, (i <= j)%nat -> (j < n)%nat ->
      (nth i idx 0 <= nth j idx 0)%nat.
Proof.
  intros Hn Hsf Hinc Hpf.
  destruct (harmonic_indices_first_best sf n pf Hn Hsf) as [idx [Hidx [Hlen Hfb]]].
  exists idx. split; [exact Hidx|]. split; [exact Hlen|].
  intros i j Hij Hj.
  destruct (le_lt_dec (nth i idx 0%nat) (nth j idx 0%nat)) as [Hle|Hlt]; [exact Hle|].
  exfalso.
  destruct (Hfb i ltac:(lia)) as [Hki [_ Hbefore]].
  destruct (Hfb j Hj) as [Hkj [Hall _]].
  rewrite length_map in Hki, Hkj, Hall.
  set (k := nth i idx 0%nat) in *. set (k' := nth j idx 0%nat) in *.
  specialize (Hbefore k' Hlt). specialize (Hall k Hki).
  rewrite !(nth_map_inside (harmonic_distance pf (S i)) sf _ 0 0) in Hbefore by lia.
  rewrite !(nth_map_inside (harmonic_distance pf (S j)) sf _ 0 0) in Hall by lia.
  apply Qlt_bool_iff in Hbefore. apply Qlt_bool_false_iff in Hall.
  unfold harmonic_distance in Hbefore, Hall.
  apply (nearest_not_crossed (clamped (nth k' sf 0)) (clamped (nth k sf 0))
           (harmonic_target pf (S i)) (harmonic_target pf (S j))).
  - apply clamped_monotone, Qlt_le_weak, Hinc; lia.
  - apply harmonic_target_monotone; [exact Hpf|lia].
  - exact Hbefore.
  - exact Hall.
Qed.

Lemma increasing_example : increasing [0; 25; 75; 100].
Proof.
  intros a b Hab Hb. simpl in Hb.
  destruct b as [|[|[|[|b]]]]; try lia;
    destruct a as [|[|[|a]]]; try lia; reflexivity.
Qed.

Lemma harmonics_indices_monotone_witness :
  exists idx,
    _get_harmonics_indices [0; 25; 75; 100] 2 50 = Ok idx /\ length idx = 2%nat /\
    forall i j, (i <= j)%nat -> (j < 2)%nat ->
      (nth i idx 0 <= nth j idx 0)%nat.
Proof.
  apply (harmonics_indices_monotone [0; 25; 75; 100] 2 50).
  - lia.
  - discriminate.
  - exact increasing_example.
  - discriminate.
Defined.




(* ================================================================== *)
(** * More on the mains amplitude *)

(** X6. When no mains frequency is requested, the lookup never fails on a
    well-formed spectrum with at least one row and two columns: the peak vote
    returns a bin frequency, and the result is the column of the amplitudes
    at the first bin with that frequency. *)
Theorem mains_frequency_amplitude_auto (s : ndarray) (pf sr : Q) :
  wf_ndarray s -> (1 <= shape0 s)%nat -> (2 <= shape1 s)%nat ->
  exists freqs v idx,
    spectral_frequencies (_get_window_from_spectrum s) 20 false pf sr = Ok freqs /\
    _peak_amplitude_frequency s freqs = Ok v /\
    (idx < shape1 s)%nat /\ nth idx freqs 0 == v /\
    (forall j, (j < idx)%nat -> ~ nth j freqs 0 == v) /\
    _mains_frequency_amplitude s None pf sr
    = Ok (mk_ndarray 1 (map (fun r => [nth idx r 0]) (rows s))).
Proof.
  intros Hwf Hr Hc.
  destruct (bins_of_spectrum s 20 pf sr ltac:(lia)) as [freqs [Hf Hl]].
  destruct (peak_frequencies_defined s freqs Hwf ltac:(lia)) as [peaks [Hp HP]].
  assert (Hlen : length peaks = shape0 s) by (symmetry; exact (Forall2_length HP)).
  assert (Hne : peaks <> []).
  { intros E. rewrite E in Hlen. simpl in Hlen. lia. }
  destruct (most_common_smallest peaks Hne) as [i [v [Hi [Hv [Hin _]]]]].
  assert (Hpaf : _peak_amplitude_frequency s freqs = Ok v).
  { unfold _peak_amplitude_frequency. rewrite Hp. cbv beta iota delta [bind].
    destruct (unique_counts peaks) as [values counts]. simpl in Hi, Hv.
    rewrite Hi. now rewrite Hv. }
  assert (Hmem : exists g, In g freqs /\ g == v).
  { exists v. split; [|reflexivity].
    apply in_split in Hin. destruct Hin as [l1 [l2 E]]. subst peaks.
    apply Forall2_app_inv_r in HP. destruct HP as [r1 [r2 [_ [HP2 E]]]].
    inversion HP2 as [|row p rs ps [k [[Hk _] Hkv]] _]; subst.
    apply nth_In.
    unfold wf_ndarray in Hwf. rewrite Forall_forall in Hwf.
    assert (Hrow : In row (rows s)).
    { rewrite E. apply in_or_app. right. left. reflexivity. }
    rewrite (Hwf row Hrow) in Hk. lia. }
  destruct (mains_lookup_cases s None pf sr freqs v Hf Hpaf) as [_ [_ Hcol]].
  destruct (Hcol Hmem) as [idx [Hidx [Heq [Hfirst Hres]]]].
  exists freqs, v, idx. repeat split; assumption.
Qed.

Lemma mains_frequency_amplitude_auto_witness :
  exists freqs v idx,
    spectral_frequencies (_get_window_from_spectrum spectrum_votes) 20 false
      POWER_FREQUENCY SAMPLING_RATE = Ok freqs /\
    _peak_amplitude_frequency spectrum_votes freqs = Ok v /\
    (idx < shape1 spectrum_votes)%nat /\ nth idx freqs 0 == v /\
    (forall j, (j < idx)%nat -> ~ nth j freqs 0 == v) /\
    _mains_frequency_amplitude spectrum_votes None POWER_FREQUENCY SAMPLING_RATE
    = Ok (mk_ndarray 1 (map (fun r => [nth idx r 0]) (rows spectrum_votes))).
Proof.
  apply (mains_frequency_amplitude_auto spectrum_votes POWER_FREQUENCY SAMPLING_RATE).
  - unfold wf_ndarray, spectrum_votes. simpl. repeat constructor.
  - unfold shape0. simpl. lia.
  - simpl. lia.
Defined.







(* ================================================================== *)
(** * More on the high-pass filter *)

(** The filter each supported type builds is the list of the gains of the
    bins. *)
Lemma high_pass_filter_table (s : ndarray) (t : string) (cutoff : Q) (freqs : list Q) :
  spectral_frequencies (_get_window_from_spectrum s) 20 false
    POWER_FREQUENCY SAMPLING_RATE = Ok freqs ->
  In t supported_filter_types ->
  high_pass_filter s t cutoff
  = Ok (mk_ndarray (shape1 s)
          (map (fun i =>
                  map (fun j => entry s i j * filter_gain t cutoff (nth j freqs 0))
                      (seq 0 (shape1 s)))
               (seq 0 (shape0 s)))).
Proof.
  intros Hf Hin.
  destruct (bins_of_spectrum_inv _ _ _ _ _ Hf) as [Hl _].
  assert (Hgain : forall filter,
             filter = map (filter_gain t cutoff) freqs ->
             broadcast2 Qmult s (row_vector filter)
             = Ok (mk_ndarray (shape1 s)
                     (map (fun i =>
                             map (fun j => entry s i j *
                                           filter_gain t cutoff (nth j freqs 0))
                                 (seq 0 (shape1 s)))
                          (seq 0 (shape0 s))))).
  { intros filter ->. rewrite (apply_filter s freqs _ Hf) by now rewrite length_map.
    do 2 f_equal. apply map_ext_in. intros i _. apply map_ext_in. intros j Hj.
    apply in_seq in Hj.
    now rewrite (nth_map_inside (filter_gain t cutoff) freqs j 0 0) by lia. }
  unfold high_pass_filter. rewrite Hf. cbv beta iota delta [bind].
  unfold supported_filter_types in Hin. simpl in Hin.
  destruct Hin as [<-|[<-|[<-|[<-|[]]]]]; simpl; apply Hgain;
    apply map_ext; intros f; unfold filter_gain; simpl;
    destruct (Qlt_bool f cutoff); reflexivity.
Qed.

(** A gain is between 0 and 1 on a non-negative frequency, and is 1 from
    the cutoff on. *)
Lemma filter_gain_bounds (t : string) (cutoff f : Q) :
  0 <= f ->
  0 <= filter_gain t cutoff f <= 1 /\ (cutoff <= f -> filter_gain t cutoff f = 1).
Proof.
  intros Hf. unfold filter_gain. destruct (Qlt_bool f cutoff) eqn:E.
  - apply Qlt_bool_iff in E.
    assert (Hc : 0 < cutoff) by Lqa.lra.
    assert (Hq : 0 <= f / cutoff < 1).
    { split.
      - apply Qle_shift_div_l; [exact Hc|]. Lqa.lra.
      - apply Qlt_shift_div_r; [exact Hc|]. Lqa.lra. }
    split; [|intros Hge; Lqa.lra].
    destruct (String.eqb t "zero"); [Lqa.lra|].
    destruct (String.eqb t "linear"); [Lqa.lra|].
    destruct (String.eqb t "quadratic"); [|Lqa.lra].
    split.
    + apply Qmult_le_0_compat; apply Hq.
    + setoid_replace 1 with (1 * 1) by ring.
      apply Qmult_le_compat_nonneg; split; try apply Hq; apply Qlt_le_weak, Hq.
  - split; [Lqa.lra|reflexivity].
Qed.

(** Every bin of a filtered spectrum is the input bin times its gain. *)
Lemma filtered_bins (s : ndarray) (t : string) (cutoff : Q) :
  shape1 s <> 1%nat -> In t supported_filter_types ->
  exists freqs out,
    spectral_frequencies (_get_window_from_spectrum s) 20 false
      POWER_FREQUENCY SAMPLING_RATE = Ok freqs /\
    high_pass_filter s t cutoff = Ok out /\
    shape0 out = shape0 s /\ shape1 out = shape1 s /\ wf_ndarray out /\
    forall i j, (i < shape0 s)%nat -> (j < shape1 s)%nat ->
      exists g,
        entry out i j = entry s i j * g /\ 0 <= g <= 1 /\
        (cutoff <= nth j freqs 0 -> g = 1) /\
        (0 <= entry s i j -> 0 <= entry out i j <= entry s i j).
Proof.
  intros Hc Hin.
  destruct (bins_of_spectrum s 20 POWER_FREQUENCY SAMPLING_RATE Hc) as [freqs [Hf Hl]].
  exists freqs. eexists. split; [exact Hf|].
  split; [apply (high_pass_filter_table s t cutoff freqs Hf Hin)|].
  split; [unfold shape0; simpl; now rewrite length_map, length_seq|].
  split; [reflexivity|]. split.
  { unfold wf_ndarray. simpl. apply Forall_forall. intros r Hr.
    apply in_map_iff in Hr. destruct Hr as [i [<- _]].
    now rewrite length_map, length_seq. }
  intros i j Hi Hj.
  rewrite (entry_of_table
             (fun i j => entry s i j * filter_gain t cutoff (nth j freqs 0))
             (shape0 s) (shape1 s) i j Hi Hj).
  assert (Hnn : 0 <= nth j freqs 0).
  { destruct (bins_of_window (_get_window_from_spectrum s) 20
                POWER_FREQUENCY SAMPLING_RATE)
      as [freqs' [Hf' [_ [_ [_ [_ [_ Hpos]]]]]]].
    { unfold _get_window_from_spectrum. lia. }
    rewrite Hf in Hf'. injection Hf' as <-.
    apply Hpos; [discriminate|]. apply nth_In. lia. }
  destruct (filter_gain_bounds t cutoff (nth j freqs 0) Hnn) as [Hb Hone].
  exists (filter_gain t cutoff (nth j freqs 0)).
  split; [reflexivity|]. split; [exact Hb|]. split; [exact Hone|].
  intros Hs. split.
  - apply Qmult_le_0_compat; [exact Hs|apply Hb].
  - setoid_replace (entry s i j) with (entry s i j * 1) at 2 by ring.
    apply Qmult_le_compat_nonneg; [split; [exact Hs|apply Qle_refl]|exact Hb].
Qed.

(** X9. For each of the four filter types, on a spectrum whose column
    count is not 1, [high_pass_filter] returns a well-formed spectrum of the
    same shape whose every bin is the input amplitude times a gain between 0
    and 1, equal to 1 from the cutoff on: a non-negative amplitude is never
    amplified and never made negative. *)
Theorem high_pass_filter_never_amplifies (s : ndarray) (t : string) (cutoff : Q) :
  shape1 s <> 1%nat -> In t supported_filter_types ->
  exists freqs out,
    spectral_frequencies (_get_window_from_spectrum s) 20 false
      POWER_FREQUENCY SAMPLING_RATE = Ok freqs /\
    high_pass_filter s t cutoff = Ok out /\
    shape0 out = shape0 s /\ shape1 out = shape1 s /\ wf_ndarray out /\
    forall i j, (i < shape0 s)%nat -> (j < shape1 s)%nat ->
      exists g,
        entry out i j = entry s i j * g /\ 0 <= g <= 1 /\
        (cutoff <= nth j freqs 0 -> g = 1) /\
        (0 <= entry s i j -> 0 <= entry out i j <= entry s i j).
Proof. exact (filtered_bins s t cutoff). Qed.

Lemma supported_linear : In "linear"%string supported_filter_types.
Proof. unfold supported_filter_types. simpl. auto. Qed.

Lemma supported_zero : In "zero"%string supported_filter_types.
Proof. unfold supported_filter_types. simpl. auto. Qed.

Lemma supported_quadratic : In "quadratic"%string supported_filter_types.
Proof. unfold supported_filter_types. simpl. auto. Qed.

Lemma supported_none : In "none"%string supported_filter_types.
Proof. unfold supported_filter_types. simpl. auto 6. Qed.

Lemma high_pass_filter_never_amplifies_witness :
  exists freqs out,
    spectral_frequencies (_get_window_from_spectrum spectrum_3_bins) 20 false
      POWER_FREQUENCY SAMPLING_RATE = Ok freqs /\
    high_pass_filter spectrum_3_bins "quadratic" 3000 = Ok out /\
    shape0 out = shape0 spectrum_3_bins /\ shape1 out = shape1 spectrum_3_bins /\
    wf_ndarray out /\
    forall i j, (i < shape0 spectrum_3_bins)%nat -> (j < shape1 spectrum_3_bins)%nat ->
      exists g,
        entry out i j = entry spectrum_3_bins i j * g /\ 0 <= g <= 1 /\
        (3000 <= nth j freqs 0 -> g = 1) /\
        (0 <= entry spectrum_3_bins i j ->
         0 <= entry out i j <= entry spectrum_3_bins i j).
Proof.
  apply (high_pass_filter_never_amplifies spectrum_3_bins "quadratic" 3000).
  - simpl. discriminate.
  - exact supported_quadratic.
Defined.

(** X10. On a spectrum whose column count is not 1, the filters of type
    ["linear"] and ["quadratic"] multiply every bin whose frequency [f] is
    strictly below the cutoff by [f / cutoff] and by the square of
    [f / cutoff], and leave every bin at or above the cutoff unchanged. *)
Theorem high_pass_filter_linear_quadratic (s : ndarray) (cutoff : Q) :
  shape1 s <> 1%nat ->
  exists freqs lin quad,
    spectral_frequencies (_get_window_from_spectrum s) 20 false
      POWER_FREQUENCY SAMPLING_RATE = Ok freqs /\
    high_pass_filter s "linear" cutoff = Ok lin /\
    high_pass_filter s "quadratic" cutoff = Ok quad /\
    forall i j, (i < shape0 s)%nat -> (j < shape1 s)%nat ->
      (nth j freqs 0 < cutoff ->
       entry lin i j = entry s i j * (nth j freqs 0 / cutoff) /\
       entry quad i j
       = entry s i j * ((nth j freqs 0 / cutoff) * (nth j freqs 0 / cutoff))) /\
      (cutoff <= nth j freqs 0 ->
       entry lin i j = entry s i j /\ entry quad i j = entry s i j).
Proof.
  intros Hc.
  destruct (bins_of_spectrum s 20 POWER_FREQUENCY SAMPLING_RATE Hc) as [freqs [Hf Hl]].
  exists freqs. eexists. eexists. split; [exact Hf|].
  split; [apply (high_pass_filter_table s "linear" cutoff freqs Hf supported_linear)|].
  split; [apply (high_pass_filter_table s "quadratic" cutoff freqs Hf supported_quadratic)|].
  intros i j Hi Hj.
  rewrite (entry_of_table
             (fun i j => entry s i j * filter_gain "linear" cutoff (nth j freqs 0))
             (shape0 s) (shape1 s) i j Hi Hj).
  rewrite (entry_of_table
             (fun i j => entry s i j * filter_gain "quadratic" cutoff (nth j freqs 0))
             (shape0 s) (shape1 s) i j Hi Hj).
  unfold filter_gain. simpl. split; intros Hlt.
  - apply Qlt_bool_iff in Hlt. rewrite Hlt. split; reflexivity.
  - apply Qlt_bool_false_iff in Hlt. rewrite Hlt. split; apply Qmult_one_r.
Qed.

Lemma high_pass_filter_linear_quadratic_witness :
  exists freqs lin quad,
    spectral_frequencies (_get_window_from_spectrum spectrum_3_bins) 20 false
      POWER_FREQUENCY SAMPLING_RATE = Ok freqs /\
    high_pass_filter spectrum_3_bins "linear" 3000 = Ok lin /\
    high_pass_filter spectrum_3_bins "quadratic" 3000 = Ok quad /\
    forall i j, (i < shape0 spectrum_3_bins)%nat -> (j < shape1 spectrum_3_bins)%nat ->
      (nth j freqs 0 < 3000 ->
       entry lin i j = entry spectrum_3_bins i j * (nth j freqs 0 / 3000) /\
       entry quad i j
       = entry spectrum_3_bins i j * ((nth j freqs 0 / 3000) * (nth j freqs 0 / 3000))) /\
      (3000 <= nth j freqs 0 ->
       entry lin i j = entry spectrum_3_bins i j /\
       entry quad i j = entry spectrum_3_bins i j).
Proof.
  apply (high_pass_filter_linear_quadratic spectrum_3_bins 3000).
  simpl. discriminate.
Defined.

Lemma zero_gain_idempotent (x cutoff f : Q) :
  x * filter_gain "zero" cutoff f * filter_gain "zero" cutoff f
  = x * filter_gain "zero" cutoff f.
Proof.
  unfold filter_gain. simpl. destruct (Qlt_bool f cutoff).
  - destruct x as [a b]. unfold Qmult. simpl.
    rewrite !Z.mul_0_r, !Pos.mul_1_r. reflexivity.
  - now rewrite !Qmult_one_r.
Qed.

(** X11. The filter of type ["zero"] is idempotent: filtering its own
    result again, with the same cutoff, returns that result. *)
Theorem high_pass_filter_zero_idempotent (s out : ndarray) (cutoff : Q) :
  high_pass_filter s "zero" cutoff = Ok out ->
  high_pass_filter out "zero" cutoff = Ok out.
Proof.
  intros H.
  assert (Hc : shape1 s <> 1%nat).
  { intros E. rewrite (high_pass_filter_one_bin s "zero" cutoff E) in H. discriminate. }
  destruct (bins_of_spectrum s 20 POWER_FREQUENCY SAMPLING_RATE Hc) as [freqs [Hf Hl]].
  rewrite (high_pass_filter_table s "zero" cutoff freqs Hf supported_zero) in H.
  injection H as H. subst out.
  set (out := mk_ndarray (shape1 s) _).
  assert (Hf' : spectral_frequencies (_get_window_from_spectrum out) 20 false
                  POWER_FREQUENCY SAMPLING_RATE = Ok freqs) by exact Hf.
  rewrite (high_pass_filter_table out "zero" cutoff freqs Hf' supported_zero).
  assert (Hr : shape0 out = shape0 s).
  { unfold shape0, out. simpl. now rewrite length_map, length_seq. }
  rewrite Hr. change (shape1 out) with (shape1 s).
  unfold out at 2. do 2 f_equal.
  apply map_ext_in. intros i Hi. apply in_seq in Hi.
  apply map_ext_in. intros j Hj. apply in_seq in Hj.
  unfold out.
  rewrite (entry_of_table
             (fun i j => entry s i j * filter_gain "zero" cutoff (nth j freqs 0))
             (shape0 s) (shape1 s) i j) by lia.
  apply zero_gain_idempotent.
Qed.

Lemma high_pass_filter_zero_idempotent_witness :
  high_pass_filter (mk_ndarray 3 [[0; 2; 3]; [0; 5; 6]]) "zero" 1000
  = Ok (mk_ndarray 3 [[0; 2; 3]; [0; 5; 6]]).
Proof.
  apply (high_pass_filter_zero_idempotent spectrum_3_bins).
  reflexivity.
Defined.

(* ================================================================== *)
(** * The high-frequency mean *)

Lemma Qsum_map_le (f g : nat -> Q) (l : list nat) :
  (forall j, In j l -> f j <= g j) -> Qsum (map f l) <= Qsum (map g l).
Proof.
  induction l as [|a l IH]; intros H; simpl.
  - apply Qle_refl.
  - apply Qplus_le_compat; [apply H; left; reflexivity|].
    apply IH. intros j Hj. apply H. right. exact Hj.
Qed.

Lemma Qsum_map_nonneg (f : nat -> Q) (l : list nat) :
  (forall j, In j l -> 0 <= f j) -> 0 <= Qsum (map f l).
Proof.
  induction l as [|a l IH]; intros H; simpl.
  - apply Qle_refl.
  - setoid_replace 0 with (0 + 0) by ring.
    apply Qplus_le_compat; [apply H; left; reflexivity|].
    apply IH. intros j Hj. apply H. right. exact Hj.
Qed.

Lemma row_as_entries (s : ndarray) (i : nat) :
  wf_ndarray s -> (i < shape0 s)%nat ->
  nth i (rows s) [] = map (fun j => entry s i j) (seq 0 (shape1 s)).
Proof.
  intros Hwf Hi. rewrite <- (rows_as_entries s Hwf) at 1.
  exact (nth_map_seq (fun i => map (fun j => entry s i j) (seq 0 (shape1 s)))
                     (shape0 s) i [] Hi).
Qed.

(** X12. On a well-formed spectrum of non-negative amplitudes with at
    least two columns, the high-frequency spectral mean of a row is, for each
    of the four filter types, between 0 and the mean of the unfiltered
    row. *)
Theorem high_frequency_spectral_mean_bounds (s : ndarray) (t : string) (cutoff : Q) :
  wf_ndarray s -> (2 <= shape1 s)%nat -> In t supported_filter_types ->
  (forall i j, (i < shape0 s)%nat -> (j < shape1 s)%nat -> 0 <= entry s i j) ->
  exists out,
    high_frequency_spectral_mean s t cutoff = Ok out /\
    shape0 out = shape0 s /\ shape1 out = 1%nat /\
    forall i, (i < shape0 s)%nat ->
      0 <= entry out i 0 <= mean (nth i (rows s) []).
Proof.
  intros Hwf Hc Hin Hnn.
  destruct (filtered_bins s t cutoff ltac:(lia) Hin)
    as [freqs [f [Hf [Hflt [Hr0 [Hr1 [Hfwf Hent]]]]]]].
  unfold high_frequency_spectral_mean. rewrite Hflt. cbv beta iota delta [bind].
  eexists. split; [reflexivity|].
  split; [unfold shape0, reshape_column, mean_axis1; simpl;
          rewrite !length_map; exact Hr0|].
  split; [reflexivity|].
  intros i Hi.
  assert (Hi' : (i < shape0 f)%nat) by lia.
  unfold entry, reshape_column, mean_axis1. cbn [rows]. rewrite map_map.
  rewrite (nth_map_inside (fun r => [mean r]) (rows f) i [] []) by exact Hi'.
  cbn [nth].
  rewrite (row_as_entries f i Hfwf Hi'), (row_as_entries s i Hwf Hi), Hr1.
  unfold mean. rewrite !length_map, length_seq.
  assert (Hn : 0 < inject_Z (Z.of_nat (shape1 s))) by (apply inject_Z_positive; lia).
  split.
  - apply Qle_shift_div_l; [exact Hn|]. rewrite Qmult_0_l.
    apply Qsum_map_nonneg. intros j Hj. apply in_seq in Hj.
    destruct (Hent i j Hi ltac:(lia)) as [g [_ [_ [_ Hb]]]].
    apply Hb. apply Hnn; lia.
  - unfold Qdiv. apply Qmult_le_compat_r.
    + apply Qsum_map_le. intros j Hj. apply in_seq in Hj.
      destruct (Hent i j Hi ltac:(lia)) as [g [_ [_ [_ Hb]]]].
      apply Hb. apply Hnn; lia.
    + apply Qlt_le_weak, Qinv_lt_0_compat, Hn.
Qed.

Lemma spectrum_3_bins_wf : wf_ndarray spectrum_3_bins.
Proof. unfold wf_ndarray, spectrum_3_bins. simpl. repeat constructor. Qed.

Lemma spectrum_3_bins_nonneg (i j : nat) :
  (i < shape0 spectrum_3_bins)%nat -> (j < shape1 spectrum_3_bins)%nat ->
  0 <= entry spectrum_3_bins i j.
Proof.
  unfold shape0. simpl. intros Hi Hj.
  destruct i as [|[|i]]; try lia; destruct j as [|[|[|j]]]; try lia; discriminate.
Qed.

Lemma high_frequency_spectral_mean_bounds_witness :
  exists out,
    high_frequency_spectral_mean spectrum_3_bins "linear" 3000 = Ok out /\
    shape0 out = shape0 spectrum_3_bins /\ shape1 out = 1%nat /\
    forall i, (i < shape0 spectrum_3_bins)%nat ->
      0 <= entry out i 0 <= mean (nth i (rows spectrum_3_bins) []).
Proof.
  apply (high_frequency_spectral_mean_bounds spectrum_3_bins "linear" 3000).
  - exact spectrum_3_bins_wf.
  - simpl. lia.
  - exact supported_linear.
  - exact spectrum_3_bins_nonneg.
Defined.

(* ================================================================== *)
(** * The spectral centroid *)

Lemma nth_skipn_one {A : Type} (l : list A) (j : nat) (d : A) :
  nth j (skipn 1 l) d = nth (S j) l d.
Proof. destruct l as [|a l]; [destruct j; reflexivity|reflexivity]. Qed.

Lemma length_skipn_one {A : Type} (l : list A) : length (skipn 1 l) = (length l - 1)%nat.
Proof. destruct l as [|a l]; simpl; lia. Qed.

Lemma entry_slice_from_one (s : ndarray) (i j : nat) :
  entry (slice_columns_from 1 s) i j = entry s i (S j).
Proof.
  unfold entry, slice_columns_from. cbn [rows].
  change (@nil Q) with (skipn 1 (@nil Q)) at 1.
  rewrite (map_nth (skipn 1) (rows s) [] i). apply nth_skipn_one.
Qed.

Lemma default_window_positive (current : ndarray) :
  (1 <= shape1 current)%nat -> (0 < _get_default_window current)%Z.
Proof.
  intros Hc. unfold _get_default_window.
  replace (shape1 current =? 0)%nat with false by (symmetry; apply Nat.eqb_neq; lia).
  apply Z.pow_pos_nonneg; [lia|apply Z.log2_nonneg].
Qed.

(** X13. When the spectrum has the bins of the default window of
    [current] (one column per bin), [spectral_centroid] returns for each row
    the sum over the bins after the first of amplitude divided by bin
    frequency, divided by the sum of those amplitudes: the bin of 0 Hz takes
    no part, and the weight of a bin is the inverse of its frequency. *)
Theorem spectral_centroid_rows (s current : ndarray) (pf sr : Q) :
  (1 <= shape1 current)%nat ->
  shape1 s = Z.to_nat (_get_default_window current / 2 + 1) ->
  exists freqs,
    spectral_frequencies (_get_default_window current) 20 false pf sr = Ok freqs /\
    length freqs = shape1 s /\
    spectral_centroid s current pf sr
    = Ok (reshape_column
            (map (fun i =>
                    Qsum (map (fun j => entry s i (S j) / nth (S j) freqs 0)
                              (seq 0 (shape1 s - 1)))
                    / Qsum (skipn 1 (nth i (rows s) [])))
                 (seq 0 (shape0 s)))).
Proof.
  intros Hc Hs.
  destruct (bins_of_window (_get_default_window current) 20 pf sr
              (default_window_positive current Hc)) as [freqs [Hf [Hl _]]].
  exists freqs. split; [exact Hf|]. split; [congruence|].
  unfold spectral_centroid. rewrite Hf. cbv beta iota delta [bind].
  set (sl := slice_columns_from 1 s).
  assert (Hr : shape0 sl = shape0 s)
    by (unfold shape0, sl, slice_columns_from; simpl; apply length_map).
  assert (Hsl : shape1 sl = (shape1 s - 1)%nat) by reflexivity.
  rewrite broadcast2_row_vector by (rewrite length_skipn_one; lia).
  cbv beta iota delta [bind]. rewrite Hr, Hsl.
  unfold sum_axis1. cbn [rows].
  change (rows sl) with (map (skipn 1) (rows s)). rewrite !map_map.
  rewrite broadcast1_same_length by (rewrite !length_map, length_seq; reflexivity).
  rewrite length_map, length_seq. do 2 f_equal.
  apply map_ext_in. intros i Hi. apply in_seq in Hi.
  rewrite (nth_map_seq _ (shape0 s) i 0) by lia.
  rewrite (nth_map_inside (fun r => Qsum (skipn 1 r)) (rows s) i 0 [])
    by (fold (shape0 s); lia).
  f_equal. f_equal. apply map_ext. intros j.
  unfold sl. now rewrite entry_slice_from_one, nth_skipn_one.
Qed.

Lemma spectral_centroid_rows_witness :
  exists freqs,
    spectral_frequencies (_get_default_window (mk_ndarray 8 [])) 20 false 50 6400
    = Ok freqs /\
    length freqs = shape1 spectrum_5_bins /\
    spectral_centroid spectrum_5_bins (mk_ndarray 8 []) 50 6400
    = Ok (reshape_column
            (map (fun i =>
                    Qsum (map (fun j => entry spectrum_5_bins i (S j) / nth (S j) freqs 0)
                              (seq 0 (shape1 spectrum_5_bins - 1)))
                    / Qsum (skipn 1 (nth i (rows spectrum_5_bins) [])))
                 (seq 0 (shape0 spectrum_5_bins)))).
Proof.
  apply (spectral_centroid_rows spectrum_5_bins (mk_ndarray 8 []) 50 6400).
  - simpl. lia.
  - reflexivity.
Defined.



(* ================================================================== *)
(** * The high-frequency centroid *)

Lemma none_gain (cutoff f : Q) : filter_gain "none" cutoff f = 1.
Proof. unfold filter_gain. simpl. destruct (Qlt_bool f cutoff); reflexivity. Qed.

Lemma none_filter_returns_input (s : ndarray) (cutoff : Q) :
  wf_ndarray s -> shape1 s <> 1%nat -> high_pass_filter s "none" cutoff = Ok s.
Proof.
  intros Hwf Hc.
  destruct (bins_of_spectrum s 20 POWER_FREQUENCY SAMPLING_RATE Hc) as [freqs [Hf _]].
  rewrite (high_pass_filter_table s "none" cutoff freqs Hf supported_none).
  f_equal. destruct s as [c rs]. simpl in *. f_equal.
  rewrite <- (rows_as_entries (mk_ndarray c rs) Hwf) at 2. simpl.
  apply map_ext. intros i. apply map_ext. intros j.
  rewrite none_gain. apply Qmult_one_r.
Qed.

Lemma unsupported_filter_raises (s : ndarray) (t : string) (cutoff : Q) :
  shape1 s <> 1%nat -> ~ In t supported_filter_types ->
  high_pass_filter s t cutoff = Raise (ValueError_filter_type t).
Proof.
  intros Hc Hn.
  destruct (bins_of_spectrum s 20 POWER_FREQUENCY SAMPLING_RATE Hc) as [freqs [Hf _]].
  destruct (filter_type_cases t) as [Hin|[_ [E1 [E2 [E3 E4]]]]]; [contradiction|].
  unfold high_pass_filter. rewrite Hf. simpl. now rewrite E1, E2, E3, E4.
Qed.

(** X15. On a well-formed spectrum whose column count is not 1, the
    high-frequency spectral centroid with the filter type ["none"] is the
    spectral centroid itself; with a filter type that is not implemented it
    raises the error naming that type, whatever [current] is. *)
Theorem high_frequency_spectral_centroid_filter
        (s current : ndarray) (cutoff pf sr : Q) :
  wf_ndarray s -> shape1 s <> 1%nat ->
  high_frequency_spectral_centroid s current "none" cutoff pf sr
  = spectral_centroid s current pf sr /\
  forall t, ~ In t supported_filter_types ->
    high_frequency_spectral_centroid s current t cutoff pf sr
    = Raise (ValueError_filter_type t).
Proof.
  intros Hwf Hc. unfold high_frequency_spectral_centroid. split.
  - now rewrite (none_filter_returns_input s cutoff Hwf Hc).
  - intros t Hn. now rewrite (unsupported_filter_raises s t cutoff Hc Hn).
Qed.

Lemma high_frequency_spectral_centroid_filter_witness :
  high_frequency_spectral_centroid spectrum_5_bins (mk_ndarray 8 []) "none" 1000 50 6400
  = spectral_centroid spectrum_5_bins (mk_ndarray 8 []) 50 6400 /\
  forall t, ~ In t supported_filter_types ->
    high_frequency_spectral_centroid spectrum_5_bins (mk_ndarray 8 []) t 1000 50 6400
    = Raise (ValueError_filter_type t).
Proof.
  apply (high_frequency_spectral_centroid_filter
           spectrum_5_bins (mk_ndarray 8 []) 1000 50 6400).
  - unfold wf_ndarray, spectrum_5_bins. simpl. repeat constructor.
  - simpl. discriminate.
Defined.

(* ================================================================== *)
(** * The signal to signal mean ratio *)

(** The running maximum is an entry of the row and bounds every entry. *)
Lemma row_max_spec (t : list Q) (x : Q) :
  In (row_max x t) (x :: t) /\ forall y, In y (x :: t) -> y <= row_max x t.
Proof.
  revert x. induction t as [|a t IH]; intros x.
  - simpl. split; [left; reflexivity|]. intros y [<-|[]]. apply Qle_refl.
  - unfold row_max. simpl. fold (row_max (if Qlt_bool x a then a else x) t).
    destruct (IH (if Qlt_bool x a then a else x)) as [Hin Hle].
    destruct (Qlt_bool x a) eqn:E.
    + apply Qlt_bool_iff in E. split.
      * destruct Hin as [H|H]; [right; left; exact H|right; right; exact H].
      * intros y [<-|[<-|Hy]].
        -- apply Qle_trans with a; [apply Qlt_le_weak, E|apply Hle; left; reflexivity].
        -- apply Hle. left. reflexivity.
        -- apply Hle. right. exact Hy.
    + apply Qlt_bool_false_iff in E. split.
      * destruct Hin as [H|H]; [left; exact H|right; right; exact H].
      * intros y [<-|[<-|Hy]].
        -- apply Hle. left. reflexivity.
        -- apply Qle_trans with x; [exact E|apply Hle; left; reflexivity].
        -- apply Hle. right. exact Hy.
Qed.

Lemma Qsum_le_length_times (l : list Q) (m : Q) :
  (forall y, In y l -> y <= m) -> Qsum l <= m * inject_Z (Z.of_nat (length l)).
Proof.
  induction l as [|a l IH]; intros H.
  - change (0 <= m * 0). rewrite Qmult_0_r. apply Qle_refl.
  - change (Qsum (a :: l)) with (a + Qsum l).
    change (length (a :: l)) with (S (length l)).
    rewrite Nat2Z.inj_succ, <- Z.add_1_r, inject_Z_plus.
    change (inject_Z 1) with 1.
    assert (Ha : a <= m) by (apply H; left; reflexivity).
    assert (Hl : Qsum l <= m * inject_Z (Z.of_nat (length l)))
      by (apply IH; intros y Hy; apply H; right; exact Hy).
    Lqa.lra.
Qed.

Lemma Qsum_nonneg (l : list Q) : (forall y, In y l -> 0 <= y) -> 0 <= Qsum l.
Proof.
  induction l as [|a l IH]; intros H.
  - apply Qle_refl.
  - change (Qsum (a :: l)) with (a + Qsum l).
    assert (0 <= a) by (apply H; left; reflexivity).
    assert (0 <= Qsum l) by (apply IH; intros y Hy; apply H; right; exact Hy).
    Lqa.lra.
Qed.

Lemma Qsum_ge_member (l : list Q) (m : Q) :
  (forall y, In y l -> 0 <= y) -> In m l -> m <= Qsum l.
Proof.
  induction l as [|a l IH]; intros H Hm; [destruct Hm|].
  change (Qsum (a :: l)) with (a + Qsum l).
  assert (Ha : 0 <= a) by (apply H; left; reflexivity).
  assert (Hl : 0 <= Qsum l) by (apply Qsum_nonneg; intros y Hy; apply H; right; exact Hy).
  destruct Hm as [<-|Hm].
  - Lqa.lra.
  - assert (m <= Qsum l) by (apply IH; [intros y Hy; apply H; right; exact Hy|exact Hm]).
    Lqa.lra.
Qed.

Lemma Qsum_firstn_le (n : nat) (l : list Q) :
  (forall y, In y l -> 0 <= y) -> 0 <= Qsum (firstn n l) <= Qsum l.
Proof.
  revert n. induction l as [|a l IH]; intros n H.
  - rewrite firstn_nil. simpl. split; apply Qle_refl.
  - assert (Ha : 0 <= a) by (apply H; left; reflexivity).
    assert (Hl : forall y, In y l -> 0 <= y) by (intros y Hy; apply H; right; exact Hy).
    destruct n as [|n].
    + simpl firstn. split; [apply Qle_refl|]. apply Qsum_nonneg. exact H.
    + simpl firstn. change (Qsum (a :: firstn n l)) with (a + Qsum (firstn n l)).
      change (Qsum (a :: l)) with (a + Qsum l).
      destruct (IH n Hl) as [H1 H2]. split; Lqa.lra.
Qed.

Lemma row_of_wf (s : ndarray) (i : nat) :
  wf_ndarray s -> (i < shape0 s)%nat -> length (nth i (rows s) []) = shape1 s.
Proof.
  intros Hwf Hi. unfold wf_ndarray in Hwf. rewrite Forall_forall in Hwf.
  apply Hwf. apply nth_In. exact Hi.
Qed.

(** X16. On a well-formed spectrum with at least one column
    [signal_to_signal_mean_ratio] returns one value per row, and for a row of
    non-negative amplitudes with a positive sum that value lies between 1 and
    the number of bins; on a spectrum without columns it raises. *)
Theorem signal_to_signal_mean_ratio_bounds (s : ndarray) :
  (wf_ndarray s -> (1 <= shape1 s)%nat ->
   exists out,
     signal_to_signal_mean_ratio s = Ok out /\
     shape0 out = shape0 s /\ shape1 out = 1%nat /\
     forall i, (i < shape0 s)%nat ->
       (forall x, In x (nth i (rows s) []) -> 0 <= x) ->
       0 < Qsum (nth i (rows s) []) ->
       1 <= entry out i 0 <= inject_Z (Z.of_nat (shape1 s))) /\
  (shape1 s = 0%nat ->
   signal_to_signal_mean_ratio s = Raise ValueError_empty_sequence).
Proof.
  split.
  - intros Hwf Hc. unfold signal_to_signal_mean_ratio, max_axis1, mean_axis1.
    replace (shape1 s =? 0)%nat with false by (symmetry; apply Nat.eqb_neq; lia).
    cbv beta iota delta [bind]. rewrite broadcast1_rows.
    eexists. split; [reflexivity|].
    split; [unfold shape0, reshape_column; simpl; now rewrite !length_map|].
    split; [reflexivity|].
    intros i Hi Hnn Hpos.
    unfold entry, reshape_column. cbn [rows]. rewrite map_map.
    rewrite (nth_map_inside _ (rows s) i [] []) by exact Hi. cbn [nth].
    pose proof (row_of_wf s i Hwf Hi) as Hlen.
    destruct (nth i (rows s) []) as [|x t]; [simpl in Hlen; lia|].
    destruct (row_max_spec t x) as [Hin Hle].
    assert (Hn : 0 < inject_Z (Z.of_nat (shape1 s))) by (apply inject_Z_positive; lia).
    assert (Hmean : 0 < mean (x :: t)).
    { unfold mean. rewrite Hlen. apply Qlt_shift_div_l; [exact Hn|].
      rewrite Qmult_0_l. exact Hpos. }
    split.
    + apply Qle_shift_div_l; [exact Hmean|]. rewrite Qmult_1_l.
      unfold mean. apply Qle_shift_div_r; [rewrite Hlen; exact Hn|].
      apply Qsum_le_length_times. exact Hle.
    + apply Qle_shift_div_r; [exact Hmean|].
      assert (E : inject_Z (Z.of_nat (shape1 s)) * mean (x :: t) == Qsum (x :: t)).
      { unfold mean. rewrite Hlen. field. intros H0. rewrite H0 in Hn.
        exact (Qlt_irrefl 0 Hn). }
      rewrite E. apply Qsum_ge_member; assumption.
  - intros Hc. unfold signal_to_signal_mean_ratio, max_axis1. rewrite Hc. reflexivity.
Qed.

Lemma signal_to_signal_mean_ratio_bounds_witness :
  exists out,
    signal_to_signal_mean_ratio spectrum_3_bins = Ok out /\
    shape0 out = shape0 spectrum_3_bins /\ shape1 out = 1%nat /\
    forall i, (i < shape0 spectrum_3_bins)%nat ->
      (forall x, In x (nth i (rows spectrum_3_bins) []) -> 0 <= x) ->
      0 < Qsum (nth i (rows spectrum_3_bins) []) ->
      1 <= entry out i 0 <= inject_Z (Z.of_nat (shape1 spectrum_3_bins)).
Proof.
  apply (proj1 (signal_to_signal_mean_ratio_bounds spectrum_3_bins)).
  - unfold wf_ndarray, spectrum_3_bins. simpl. repeat constructor.
  - simpl. lia.
Defined.

(* ================================================================== *)
(** * The tristimulus *)

(** X17. [tristiumulus] raises an index error on fewer than four
    harmonics.  On a well-formed matrix of at least four harmonics it returns
    three values per row; for a row of non-negative amplitudes with a
    positive sum each value is non-negative and the three sum to at most 1,
    and to exactly 1 when the matrix has at most nine harmonics. *)
Theorem tristiumulus_bounds (h : ndarray) :
  ((shape1 h < 4)%nat -> tristiumulus h = Raise IndexError) /\
  (wf_ndarray h -> (4 <= shape1 h)%nat ->
   exists out,
     tristiumulus h = Ok out /\ shape0 out = shape0 h /\ shape1 out = 3%nat /\
     forall i, (i < shape0 h)%nat ->
       (forall x, In x (nth i (rows h) []) -> 0 <= x) ->
       0 < Qsum (nth i (rows h) []) ->
       0 <= entry out i 0 /\ 0 <= entry out i 1 /\ 0 <= entry out i 2 /\
       entry out i 0 + entry out i 1 + entry out i 2 <= 1 /\
       ((shape1 h <= 9)%nat ->
        entry out i 0 + entry out i 1 + entry out i 2 == 1)).
Proof.
  split.
  - intros Hc. unfold tristiumulus, column, take_columns.
    destruct (shape1 h) as [|[|[|[|n]]]] eqn:E; try lia.
    + reflexivity.
    + simpl. unfold sum_axis1. rewrite broadcast1_rows. reflexivity.
    + simpl. unfold sum_axis1. rewrite broadcast1_rows. reflexivity.
    + simpl. unfold sum_axis1. rewrite broadcast1_rows. reflexivity.
  - intros Hwf Hc. rewrite (tristiumulus_rows h Hc).
    eexists. split; [reflexivity|].
    split; [unfold shape0; simpl; apply length_map|].
    split; [reflexivity|].
    intros i Hi Hnn Hpos.
    unfold entry. cbn [rows].
    rewrite (nth_map_inside _ (rows h) i [] []) by exact Hi. cbn [nth].
    pose proof (row_of_wf h i Hwf Hi) as Hlen.
    destruct (nth i (rows h) []) as [|a [|b [|c [|d rest]]]];
      try (simpl in Hlen; lia).
    cbn [nth skipn].
    assert (Ha : 0 <= a) by (apply Hnn; simpl; tauto).
    assert (Hb : 0 <= b) by (apply Hnn; simpl; tauto).
    assert (Hc' : 0 <= c) by (apply Hnn; simpl; tauto).
    assert (Hd : 0 <= d) by (apply Hnn; simpl; tauto).
    assert (Hrest : forall y, In y rest -> 0 <= y)
      by (intros y Hy; apply Hnn; simpl; tauto).
    destruct (Qsum_firstn_le 5 rest Hrest) as [H5 H5'].
    set (S := Qsum (a :: b :: c :: d :: rest)) in *.
    assert (ES : S == a + (b + (c + (d + Qsum rest)))) by reflexivity.
    assert (E3 : Qsum [b; c; d] == b + c + d) by (simpl; ring).
    set (T := Qsum (firstn 5 rest)) in *.
    assert (Hsum : a / S + Qsum [b; c; d] / S + T / S == (a + b + c + d + T) / S).
    { rewrite E3. field. intros H0. rewrite H0 in Hpos. exact (Qlt_irrefl 0 Hpos). }
    split; [apply Qle_shift_div_l; [exact Hpos|]; Lqa.lra|].
    split; [apply Qle_shift_div_l; [exact Hpos|]; rewrite E3; Lqa.lra|].
    split; [apply Qle_shift_div_l; [exact Hpos|]; Lqa.lra|].
    split.
    + rewrite Hsum. apply Qle_shift_div_r; [exact Hpos|]. Lqa.lra.
    + intros H9. rewrite Hsum.
      assert (ET : T = Qsum rest).
      { unfold T. rewrite firstn_all2; [reflexivity|]. simpl in Hlen. lia. }
      rewrite ET, ES. field. rewrite <- ES.
      intros H0. rewrite H0 in Hpos. exact (Qlt_irrefl 0 Hpos).
Qed.

Lemma tristiumulus_bounds_witness :
  exists out,
    tristiumulus harmonics_5 = Ok out /\ shape0 out = shape0 harmonics_5 /\
    shape1 out = 3%nat /\
    forall i, (i < shape0 harmonics_5)%nat ->
      (forall x, In x (nth i (rows harmonics_5) []) -> 0 <= x) ->
      0 < Qsum (nth i (rows harmonics_5) []) ->
      0 <= entry out i 0 /\ 0 <= entry out i 1 /\ 0 <= entry out i 2 /\
      entry out i 0 + entry out i 1 + entry out i 2 <= 1 /\
      ((shape1 harmonics_5 <= 9)%nat ->
       entry out i 0 + entry out i 1 + entry out i 2 == 1).
Proof.
  apply (proj2 (tristiumulus_bounds harmonics_5)).
  - unfold wf_ndarray, harmonics_5. simpl. repeat constructor.
  - simpl. lia.
Defined.

(* ================================================================== *)
(** * More on the spectral flatness *)

Section FlatnessOfFilteredSpectra.
Local Open Scope R_scope.

(** The amplitude that takes the place of a zero. *)
Lemma replaced_zero_positive (x : R) :
  0 <= x -> 0 < (if Req_dec_T x 0 then 1 / 100000 else x).
Proof. intros Hx. destruct (Req_dec_T x 0); Lra.lra. Qed.

(** The flatness of a non-empty row of non-negative amplitudes, zero or
    not. *)
Lemma flatness_of_row (row : list R) :
  row <> [] -> Forall (fun x => 0 <= x) row ->
  let row' := map (fun x => if Req_dec_T x 0 then 1 / 100000 else x) row in
  0 < Rpower (Rprod row') (/ INR (length row')) / Rmean row' <= 1.
Proof.
  intros Hne Hnn row'.
  assert (Hne' : row' <> []) by (unfold row'; destruct row; [congruence|discriminate]).
  assert (Hpos : Forall (fun x => 0 < x) row').
  { unfold row'. rewrite Forall_forall in *. intros y Hy.
    apply in_map_iff in Hy. destruct Hy as [x [<- Hx]].
    apply replaced_zero_positive, Hnn, Hx. }
  assert (Hs : 0 < Rsum row') by now apply Rsum_pos.
  assert (Hn : 0 < INR (length row')).
  { apply lt_0_INR. destruct row'; [congruence|simpl; lia]. }
  assert (Ha : 0 < Rmean row') by (unfold Rmean; now apply Rdiv_lt_0_compat).
  pose proof (geometric_le_arithmetic row' Hne' Hpos) as Hgm.
  assert (Hg : 0 < Rpower (Rprod row') (/ INR (length row')))
    by (unfold Rpower; apply exp_pos).
  split.
  - now apply Rdiv_lt_0_compat.
  - apply Rmult_le_reg_r with (Rmean row'); [exact Ha|].
    unfold Rdiv. rewrite Rmult_assoc, Rinv_l, Rmult_1_r, Rmult_1_l by Lra.lra.
    exact Hgm.
Qed.

Lemma Rsum_repeat (c : R) (n : nat) : Rsum (repeat c n) = INR n * c.
Proof.
  induction n as [|n IH]; [simpl; ring|].
  rewrite S_INR. simpl. fold (Rsum (repeat c n)). rewrite IH. ring.
Qed.

Lemma Forall_repeat {A : Type} (P : A -> Prop) (c : A) (n : nat) :
  P c -> Forall P (repeat c n).
Proof. intros H. induction n; simpl; constructor; assumption. Qed.

(** X18. A row of the spectrum whose amplitudes are all equal and not
    negative has flatness exactly 1; this includes the row of zeros, whose
    amplitudes the function replaces by 1/100000. *)
Theorem spectral_flatness_constant_row
        (s : list (list R)) (i n : nat) (c : R) :
  nth_error s i = Some (repeat c n) -> (1 <= n)%nat -> 0 <= c ->
  nth_error (spectral_flatness s) i = Some [1].
Proof.
  intros Hrow Hn Hc. rewrite spectral_flatness_rows.
  rewrite (map_nth_error _ i s Hrow). cbv zeta. do 2 f_equal.
  rewrite map_repeat, repeat_length.
  set (c' := if Req_dec_T c 0 then 1 / 100000 else c).
  assert (Hc' : 0 < c') by (apply replaced_zero_positive; exact Hc).
  assert (HN : 0 < INR n) by (apply lt_0_INR; lia).
  unfold Rpower, Rmean.
  rewrite ln_Rprod by (apply Forall_repeat; exact Hc').
  rewrite map_repeat, !Rsum_repeat, repeat_length.
  replace (/ INR n * (INR n * ln c')) with (ln c') by (field; Lra.lra).
  rewrite exp_ln by exact Hc'.
  field. split; Lra.lra.
Qed.

Lemma spectral_flatness_constant_row_witness :
  nth_error (spectral_flatness [[1; 2]; repeat 0 3]) 1 = Some [1].
Proof.
  apply (spectral_flatness_constant_row [[1; 2]; repeat 0 3] 1 3 0).
  - reflexivity.
  - lia.
  - Lra.lra.
Defined.

(** X19. For each of the four filter types and every spectrum of
    non-negative amplitudes with at least two columns,
    [high_frequency_spectral_flatness] returns one value per row, greater
    than 0 and at most 1, also for the rows that the filter has set to
    zero. *)
Theorem high_frequency_spectral_flatness_unit_interval
        (s : ndarray) (t : string) (cutoff : Q) :
  (2 <= shape1 s)%nat -> In t supported_filter_types ->
  (forall i j, (i < shape0 s)%nat -> (j < shape1 s)%nat -> (0 <= entry s i j)%Q) ->
  exists out,
    high_frequency_spectral_flatness s t cutoff = Ok out /\
    length out = shape0 s /\
    forall i, (i < shape0 s)%nat ->
      exists v, nth i out [] = [v] /\ 0 < v <= 1.
Proof.
  intros Hc Hin Hnn.
  assert (Hc1 : shape1 s <> 1%nat) by lia.
  destruct (bins_of_spectrum s 20 POWER_FREQUENCY SAMPLING_RATE Hc1) as [freqs [Hf Hl]].
  assert (Hfreq : forall j, (j < shape1 s)%nat -> (0 <= nth j freqs 0)%Q).
  { intros j Hj.
    destruct (bins_of_window (_get_window_from_spectrum s) 20
                POWER_FREQUENCY SAMPLING_RATE)
      as [freqs' [Hf' [_ [_ [_ [_ [_ Hpos]]]]]]].
    { unfold _get_window_from_spectrum. lia. }
    rewrite Hf in Hf'. injection Hf' as <-.
    apply Hpos; [discriminate|]. apply nth_In. lia. }
  unfold high_frequency_spectral_flatness.
  rewrite (high_pass_filter_table s t cutoff freqs Hf Hin).
  cbv beta iota delta [bind]. cbn [rows].
  eexists. split; [reflexivity|].
  rewrite spectral_flatness_rows, !map_map.
  split; [now rewrite length_map, length_seq|].
  intros i Hi.
  rewrite (nth_map_seq _ (shape0 s) i [] Hi). cbv zeta.
  eexists. split; [reflexivity|].
  apply flatness_of_row.
  - destruct (shape1 s) as [|n]; [lia|]. simpl. discriminate.
  - rewrite map_map. apply Forall_forall. intros y Hy.
    apply in_map_iff in Hy. destruct Hy as [j [<- Hj]]. apply in_seq in Hj.
    rewrite <- RMicromega.Q2R_0. apply Qreals.Qle_Rle.
    apply Qmult_le_0_compat; [apply Hnn; lia|].
    apply (filter_gain_bounds t cutoff (nth j freqs 0%Q)). apply Hfreq. lia.
Qed.

Lemma high_frequency_spectral_flatness_unit_interval_witness :
  exists out,
    high_frequency_spectral_flatness spectrum_3_bins "zero" 10000 = Ok out /\
    length out = shape0 spectrum_3_bins /\
    forall i, (i < shape0 spectrum_3_bins)%nat ->
      exists v, nth i out [] = [v] /\ 0 < v <= 1.
Proof.
  apply (high_frequency_spectral_flatness_unit_interval spectrum_3_bins "zero" 10000).
  - simpl. lia.
  - exact supported_zero.
  - exact spectrum_3_bins_nonneg.
Defined.

End FlatnessOfFilteredSpectra.
